(** * mini-stream: streaming prefix sum over SYCL pipes

    A shallow embedding of [main.cpp]: the stream element and flit types,
    the three kernels [prefixSumSimple], [prefixSumA] and [prefixSumB], the
    source and sink adapters [Input2Pipe] and [Pipe2Output], the pipes that
    connect them, and the checking loop at the end of [main].

    Kernels are perpetual loops around blocking pipe operations.  Each is
    modelled as the function one loop iteration computes (a "tick"), as a
    unit of a transition system whose steps are single pipe operations,
    interleaved in any order, and as a unit of such a system in which the
    iterations of one kernel overlap. *)

From Stdlib Require Import ZArith Lia.
From stdpp Require Import base option list relations strings.

(* ------------------------------------------------------------------ *)
(** ** Elements and flits *)
(* ------------------------------------------------------------------ *)

(** [typedef uint64_t Element;] : a 64-bit unsigned integer, as a [Z] in
    [0, 2^64) with the wrap-around of [+=] written out. *)
Abbreviation Element := Z (only parsing).

Definition Element_modulus : Z := 2 ^ 64.

Definition wrap (z : Z) : Element := (z mod Element_modulus)%Z.

Definition Element_add (a b : Element) : Element := wrap (a + b).

Definition Element_ok (z : Element) : Prop := (0 ≤ z < Element_modulus)%Z.

Definition sizeof_Element : Z := 8.

(** [#define STRM_WIDTH ((int)(64 / sizeof(Element)))] *)
Definition STRM_WIDTH : nat := Z.to_nat (64 / sizeof_Element).

(** [#define DEFAULT_PIPE_DEPTH (4)] *)
Definition DEFAULT_PIPE_DEPTH : nat := 4.

(** [typedef struct { Element element[STRM_WIDTH]; } Flit;] *)
Record Flit : Type := mkFlit { element : list Element }.

(** [f.element[i]]; the array has exactly the stream width, so the default
    is never read on a flit of the right shape. *)
Definition lane (f : Flit) (i : nat) : Element := default 0%Z (element f !! i).

(** [f.element[i] = v] *)
Definition set_lane (f : Flit) (i : nat) (v : Element) : Flit :=
  mkFlit (<[i := v]> (element f)).

(* ------------------------------------------------------------------ *)
(** ** The kernels, one loop iteration at a time *)
(* ------------------------------------------------------------------ *)

Section Kernels.

(** The stream width the kernels are compiled for (the macro
    [STRM_WIDTH]). *)
Variable W : nat.

(** A flit of the declared shape. *)
Definition Flit_ok (f : Flit) : Prop := length (element f) = W.

(** [Flit oflit;] before the loop has written its lanes.  What the
    lanes hold then does not matter, see [scan_loop_init_irrelevant]. *)
Definition Flit_uninit : Flit := mkFlit (replicate W 0%Z).

(** Body of the unrolled loop of [prefixSumSimple] and [prefixSumB]:
    [prefixSum += iflit.element[i]; oflit.element[i] = prefixSum;] *)
Definition scan_body (iflit : Flit) (st : Element * Flit) (i : nat)
  : Element * Flit :=
  let prefixSum := Element_add (fst st) (lane iflit i) in
  (prefixSum, set_lane (snd st) i prefixSum).

(** [for (int64_t i = 0; i < STRM_WIDTH; i++) { ... }] *)
Definition scan_loop (iflit : Flit) (prefixSum : Element) (oflit : Flit)
  : Element * Flit :=
  foldl (scan_body iflit) (prefixSum, oflit) (seq 0 W).

(** Loop of [prefixSumA]: [partialSum += iflit.element[i];] *)
Definition sum_loop (iflit : Flit) (partialSum : Element) : Element :=
  foldl (λ p i, Element_add p (lane iflit i)) partialSum (seq 0 W).

(** One iteration of [prefixSumSimple]: from the state [prefixSum] and
    the flit read from the input pipe to the next state and the flit
    written to the output pipe. *)
Definition prefixSumSimple_tick (prefixSum : Element) (iflit : Flit)
  : Element * Flit :=
  scan_loop iflit prefixSum Flit_uninit.

(** One iteration of [prefixSumA]: the value written to the sum pipe and
    the flit written to the data pipe. *)
Definition prefixSumA_tick (iflit : Flit) : Element * Flit :=
  let partialSum := sum_loop iflit 0%Z in
  (partialSum, iflit).

(** One iteration of [prefixSumB]: from the state [sumSoFar], the flit
    read from the data pipe and the value read from the sum pipe to the
    next state and the flit written to the output pipe. *)
Definition prefixSumB_tick (sumSoFar : Element) (iflit : Flit)
    (partialSum : Element) : Element * Flit :=
  let oflit := snd (scan_loop iflit sumSoFar Flit_uninit) in
  (Element_add sumSoFar partialSum, oflit).

(** *** Kernels as stream functions

    A kernel that runs its iterations one after the other on the
    sequence of values its input pipes deliver. *)

Fixpoint prefixSumSimple_run (prefixSum : Element) (input : list Flit)
  : list Flit :=
  match input with
  | [] => []
  | iflit :: rest =>
      let '(prefixSum', oflit) := prefixSumSimple_tick prefixSum iflit in
      oflit :: prefixSumSimple_run prefixSum' rest
  end.

(** State of [prefixSumSimple] after its iterations on [input]. *)
Definition prefixSumSimple_state (prefixSum : Element) (input : list Flit)
  : Element :=
  foldl (λ p f, fst (prefixSumSimple_tick p f)) prefixSum input.

(** The two output streams of [prefixSumA]: sum pipe and data pipe. *)
Definition prefixSumA_run (input : list Flit) : list Element * list Flit :=
  (fst ∘ prefixSumA_tick <$> input, snd ∘ prefixSumA_tick <$> input).

(** [prefixSumB] consumes one flit and one sum per iteration and stops
    for good (blocked) when either pipe has nothing more to deliver. *)
Fixpoint prefixSumB_run (sumSoFar : Element) (data : list Flit)
    (sums : list Element) : list Flit :=
  match data, sums with
  | iflit :: data', partialSum :: sums' =>
      let '(sumSoFar', oflit) := prefixSumB_tick sumSoFar iflit partialSum in
      oflit :: prefixSumB_run sumSoFar' data' sums'
  | _, _ => []
  end.

(** State of [prefixSumB] after its iterations on [data] and [sums]. *)
Fixpoint prefixSumB_state (sumSoFar : Element) (data : list Flit)
    (sums : list Element) : Element :=
  match data, sums with
  | iflit :: data', partialSum :: sums' =>
      prefixSumB_state (fst (prefixSumB_tick sumSoFar iflit partialSum))
                       data' sums'
  | _, _ => sumSoFar
  end.

(** The two-stage pipeline as a stream function: [prefixSumA] feeding
    [prefixSumB] through the sum and data pipes. *)
Definition prefixSumAB_run (input : list Flit) : list Flit :=
  let '(sums, data) := prefixSumA_run input in
  prefixSumB_run 0%Z data sums.

End Kernels.

Global Arguments prefixSumSimple_tick : simpl never.
Global Arguments prefixSumA_tick : simpl never.
Global Arguments prefixSumB_tick : simpl never.

(** The element sequence a flit sequence carries, lane 0 first. *)
Definition unpack (flits : list Flit) : list Element :=
  concat (element <$> flits).

(** Trips of a loop [for (i = 0; i < len; i += W)], as the loops of the
    source, the sink and the check are written: one for every multiple of
    [W] below [len]. *)
Definition trip_count (W len : nat) : nat := (len + (W - 1)) / W.

(** [W] elements at a time into flits, as the host fills a zeroed
    buffer: element [i] goes to lane [i % W] of flit [i / W], and the
    lanes of a last flit that the elements do not reach stay zero. *)
Definition pack (W : nat) (elts : list Element) : list Flit :=
  (λ k, mkFlit ((λ j, default 0%Z (elts !! (k * W + j))) <$> seq 0 W))
  <$> seq 0 (trip_count W (length elts)).

(** Sum of a list of integers, without wrap-around. *)
Definition Zsum (l : list Z) : Z := foldr Z.add 0%Z l.

(** The lanes a kernel compiled for width [W] reads from a flit. *)
Definition lanes (W : nat) (f : Flit) : list Element := lane f <$> seq 0 W.

(** The lanes the scanning loop has written after [n] rounds. *)
Definition scanned (p : Element) (f : Flit) (n : nat) : list Element :=
  (λ k, wrap (p + Zsum (lanes (S k) f))) <$> seq 0 n.

(** Reference prefix sums of an element sequence: entry [i] is the sum of
    entries [0..i], modulo [2^64]. *)
Definition prefix_sums (elts : list Element) : list Element :=
  (λ i, wrap (Zsum (take (S i) elts))) <$> seq 0 (length elts).

(** The same sums computed one after the other from a seed [p], as the
    host's checking loop does. *)
Fixpoint running (p : Element) (elts : list Element) : list Element :=
  match elts with
  | [] => []
  | x :: rest => let p' := Element_add p x in p' :: running p' rest
  end.

(* ------------------------------------------------------------------ *)
(** ** Pipes *)
(* ------------------------------------------------------------------ *)

(** [ext::intel::pipe<id, T, depth>]: a FIFO between one writer and one
    reader, oldest entry at the head.  [write] can complete while the pipe
    holds fewer entries than its capacity, [read] while it holds one;
    [None] says the operation cannot complete now and its caller waits. *)
Definition pipe_write {T} (capacity : nat) (q : list T) (x : T)
  : option (list T) :=
  if decide (length q < capacity) then Some (q ++ [x]) else None.

Definition pipe_read {T} (q : list T) : option (T * list T) :=
  match q with
  | [] => None
  | x :: q' => Some (x, q')
  end.

(** Capacities of the four pipes.  The depth in a pipe's type is a
    minimum ("Programmer must set minimum pipe depth to avoid deadlock.
    Compiler will adjust depth for performance."): the capacity a pipe
    really has is at least the depth it is declared with. *)
Record Caps : Type := mkCaps {
  cap_In : nat;
  cap_Out : nat;
  cap_Data : nat;
  cap_Sum : nat
}.

Definition caps_at_least (depth : nat) (c : Caps) : Prop :=
  depth ≤ cap_In c ∧ depth ≤ cap_Out c ∧ depth ≤ cap_Data c ∧ depth ≤ cap_Sum c.

(** Every pipe with exactly the declared depth. *)
Definition caps_exactly (depth : nat) : Caps := mkCaps depth depth depth depth.

(** Entries [0 .. n-1] of [odataBuf] as the host initialises them. *)
Definition odataBuf_init (W n : nat) : list Flit :=
  replicate n (mkFlit (replicate W 0%Z)).

(* ------------------------------------------------------------------ *)
(** ** The two-stage pipeline, as [main] launches it

    Four single-task kernels run side by side: [Input2Pipe] (source),
    [PrefixSumA], [PrefixSumB] and [Pipe2Output] (sink).  A state holds
    where each of them stands in its loop, its variables, and the content
    of the four pipes.  A step is one pipe operation of one kernel,
    together with the computation up to its next pipe operation. *)
(* ------------------------------------------------------------------ *)

Module TwoStage.

Inductive Unit : Type :=
| Input2Pipe
| PrefixSumA
| PrefixSumB
| Pipe2Output.

(** Where [prefixSumA] stands: before [TInPipe::read()], before
    [TSumPipe::write(partialSum)], or before [TDataPipe::write(iflit)]. *)
Inductive PcA : Type :=
| A_read
| A_writeSum (iflit : Flit) (partialSum : Element)
| A_writeData (iflit : Flit).

(** Where [prefixSumB] stands: before [TDataPipe::read()], before
    [TSumPipe::read()], or before [TOutPipe::write(oflit)]. *)
Inductive PcB : Type :=
| B_readData
| B_readSum (iflit : Flit)
| B_write (oflit : Flit).

Record State : Type := mkState {
  src_i : nat;              (* flits the source has written *)
  InPipe : list Flit;
  pcA : PcA;
  SumPipe : list Element;
  DataPipe : list Flit;
  pcB : PcB;
  sumSoFar : Element;       (* state of prefixSumB carried across time *)
  OutPipe : list Flit;
  snk_i : nat;              (* flits the sink has stored *)
  odataBuf : list Flit
}.

Section System.

Variable W : nat.
Variable caps : Caps.
(** The flits [idataBuf[0 .. STRM_LEN/STRM_WIDTH - 1]] the source
    streams; their number is the trip count of source and sink. *)
Variable input : list Flit.

Definition init : State :=
  mkState 0 [] A_read [] [] B_readData 0%Z [] 0
          (odataBuf_init W (length input)).

(** [Flit flit = ibufPtr[i / STRM_WIDTH]; InPipe::write(flit);] *)
Definition step_Input2Pipe (s : State) : option State :=
  let '(mkState i inp a sp dp b ssf op j ob) := s in
  if decide (i < length input) then
    flit ← input !! i;
    inp' ← pipe_write (cap_In caps) inp flit;
    Some (mkState (S i) inp' a sp dp b ssf op j ob)
  else None.

Definition step_PrefixSumA (s : State) : option State :=
  let '(mkState i inp a sp dp b ssf op j ob) := s in
  match a with
  | A_read =>
      '(iflit, inp') ← pipe_read inp;
      let '(partialSum, fwd) := prefixSumA_tick W iflit in
      Some (mkState i inp' (A_writeSum fwd partialSum) sp dp b ssf op j ob)
  | A_writeSum iflit partialSum =>
      sp' ← pipe_write (cap_Sum caps) sp partialSum;
      Some (mkState i inp (A_writeData iflit) sp' dp b ssf op j ob)
  | A_writeData iflit =>
      dp' ← pipe_write (cap_Data caps) dp iflit;
      Some (mkState i inp A_read sp dp' b ssf op j ob)
  end.

Definition step_PrefixSumB (s : State) : option State :=
  let '(mkState i inp a sp dp b ssf op j ob) := s in
  match b with
  | B_readData =>
      '(iflit, dp') ← pipe_read dp;
      Some (mkState i inp a sp dp' (B_readSum iflit) ssf op j ob)
  | B_readSum iflit =>
      '(partialSum, sp') ← pipe_read sp;
      let '(ssf', oflit) := prefixSumB_tick W ssf iflit partialSum in
      Some (mkState i inp a sp' dp (B_write oflit) ssf' op j ob)
  | B_write oflit =>
      op' ← pipe_write (cap_Out caps) op oflit;
      Some (mkState i inp a sp dp B_readData ssf op' j ob)
  end.

(** [Flit flit = OutPipe::read(); obufPtr[i / STRM_WIDTH] = flit;] *)
Definition step_Pipe2Output (s : State) : option State :=
  let '(mkState i inp a sp dp b ssf op j ob) := s in
  if decide (j < length input) then
    '(flit, op') ← pipe_read op;
    Some (mkState i inp a sp dp b ssf op' (S j) (<[j := flit]> ob))
  else None.

(** The step a unit can take now, if any. *)
Definition step_unit (u : Unit) (s : State) : option State :=
  match u with
  | Input2Pipe => step_Input2Pipe s
  | PrefixSumA => step_PrefixSumA s
  | PrefixSumB => step_PrefixSumB s
  | Pipe2Output => step_Pipe2Output s
  end.

Definition step (s s' : State) : Prop := ∃ u, step_unit u s = Some s'.

(** A unit has left its loop.  The loops of source and sink are
    counted; those of the two kernels are [while (1)]. *)
Definition finished (u : Unit) (s : State) : Prop :=
  match u with
  | Input2Pipe => src_i s = length input
  | Pipe2Output => snk_i s = length input
  | PrefixSumA | PrefixSumB => False
  end.

(** A unit stands at a pipe operation that cannot complete. *)
Definition blocked (u : Unit) (s : State) : Prop :=
  ¬ finished u s ∧ step_unit u s = None.

(** [eventSink.wait()] returns: the sink has stored all its flits. *)
Definition completed (s : State) : Prop := snk_i s = length input.

(** The system driven by a scheduler that gives the units of [sched]
    a turn each, in order; a unit that cannot step lets its turn
    pass. *)
Fixpoint run_schedule (sched : list Unit) (s : State) : State :=
  match sched with
  | [] => s
  | u :: sched' => run_schedule sched' (default s (step_unit u s))
  end.

(** Turns of [sched] in which the unit did step. *)
Fixpoint steps_taken (sched : list Unit) (s : State) : nat :=
  match sched with
  | [] => 0
  | u :: sched' =>
      match step_unit u s with
      | Some s' => S (steps_taken sched' s')
      | None => steps_taken sched' s
      end
  end.

(** Steps still ahead of the system: eight per flit not yet sent,
    fewer for a flit on its way. *)
Definition work_left (s : State) : nat :=
  8 * (length input - src_i s) + 7 * length (InPipe s)
  + match pcA s with
    | A_read => 0 | A_writeSum _ _ => 6 | A_writeData _ => 4
    end
  + length (SumPipe s) + 3 * length (DataPipe s)
  + match pcB s with
    | B_readData => 0 | B_readSum _ => 2 | B_write _ => 2
    end
  + length (OutPipe s).

(** *** The invariant of the system

    Every pipe holds what its writer has written and its reader has
    not yet read, where both are prefixes of one stream fixed by the
    input.  [kA] and [kB] count the iterations [prefixSumA] and
    [prefixSumB] have finished; an iteration under way has done the
    pipe operations before the point where its kernel stands. *)

(** Flits [prefixSumA] has read in the iteration under way. *)
Definition A_has_read (a : PcA) : nat :=
  match a with A_read => 0 | A_writeSum _ _ | A_writeData _ => 1 end.

(** Sums [prefixSumA] has written in the iteration under way. *)
Definition A_has_written_sum (a : PcA) : nat :=
  match a with A_read | A_writeSum _ _ => 0 | A_writeData _ => 1 end.

(** Flits [prefixSumB] has read in the iteration under way. *)
Definition B_has_read_data (b : PcB) : nat :=
  match b with B_readData => 0 | B_readSum _ | B_write _ => 1 end.

(** Sums [prefixSumB] has read in the iteration under way. *)
Definition B_has_read_sum (b : PcB) : nat :=
  match b with B_readData | B_readSum _ => 0 | B_write _ => 1 end.

(** The stream on the sum pipe and the stream on the output pipe. *)
Definition sums : list Element := fst ∘ prefixSumA_tick W <$> input.
Definition outs : list Flit := prefixSumSimple_run W 0%Z input.

Record Inv (s : State) (kA kB : nat) : Prop := mkInv {
  inv_src : src_i s ≤ length input;
  inv_A : kA + A_has_read (pcA s) ≤ src_i s;
  inv_B : kB + B_has_read_data (pcB s) ≤ kA;
  inv_snk : snk_i s ≤ kB;
  inv_In :
    take (src_i s) input
    = take (kA + A_has_read (pcA s)) input ++ InPipe s;
  inv_Sum :
    take (kA + A_has_written_sum (pcA s)) sums
    = take (kB + B_has_read_sum (pcB s)) sums ++ SumPipe s;
  inv_Data :
    take kA input
    = take (kB + B_has_read_data (pcB s)) input ++ DataPipe s;
  inv_Out : take kB outs = take (snk_i s) outs ++ OutPipe s;
  inv_obuf : take (snk_i s) (odataBuf s) = take (snk_i s) outs;
  inv_obuf_len : length (odataBuf s) = length input;
  inv_pcA :
    match pcA s with
    | A_read => True
    | A_writeSum f p =>
        input !! kA = Some f ∧ p = fst (prefixSumA_tick W f)
    | A_writeData f => input !! kA = Some f
    end;
  inv_pcB :
    match pcB s with
    | B_readData => True
    | B_readSum f => input !! kB = Some f
    | B_write o => outs !! kB = Some o
    end;
  inv_sumSoFar :
    sumSoFar s
    = prefixSumSimple_state W 0%Z
        (take (kB + B_has_read_sum (pcB s)) input)
}.

Definition Invariant (s : State) : Prop := ∃ kA kB, Inv s kA kB.

End System.

Definition round : list Unit :=
  [Input2Pipe; PrefixSumA; PrefixSumB; Pipe2Output].

(** A stretch of a schedule in which every unit gets a turn. *)
Definition fair_round (r : list Unit) : Prop := ∀ u, u ∈ r.

End TwoStage.

(* ------------------------------------------------------------------ *)
(** ** The single-stage pipeline (the branch [main] has under [#if 0]) *)
(* ------------------------------------------------------------------ *)

Module OneStage.

Inductive Unit : Type :=
| Input2Pipe
| PrefixSum
| Pipe2Output.

(** Where [prefixSumSimple] stands: before [TInPipe::read()] or before
    [TOutPipe::write(oflit)]. *)
Inductive Pc : Type :=
| S_read
| S_write (oflit : Flit).

Record State : Type := mkState {
  src_i : nat;
  InPipe : list Flit;
  pc : Pc;
  prefixSum : Element;      (* state of prefixSumSimple carried across time *)
  OutPipe : list Flit;
  snk_i : nat;
  odataBuf : list Flit
}.

Section System.

Variable W : nat.
Variable caps : Caps.
Variable input : list Flit.

Definition init : State :=
  mkState 0 [] S_read 0%Z [] 0 (odataBuf_init W (length input)).

Definition step_Input2Pipe (s : State) : option State :=
  let '(mkState i inp k ps op j ob) := s in
  if decide (i < length input) then
    flit ← input !! i;
    inp' ← pipe_write (cap_In caps) inp flit;
    Some (mkState (S i) inp' k ps op j ob)
  else None.

Definition step_PrefixSum (s : State) : option State :=
  let '(mkState i inp k ps op j ob) := s in
  match k with
  | S_read =>
      '(iflit, inp') ← pipe_read inp;
      let '(ps', oflit) := prefixSumSimple_tick W ps iflit in
      Some (mkState i inp' (S_write oflit) ps' op j ob)
  | S_write oflit =>
      op' ← pipe_write (cap_Out caps) op oflit;
      Some (mkState i inp S_read ps op' j ob)
  end.

Definition step_Pipe2Output (s : State) : option State :=
  let '(mkState i inp k ps op j ob) := s in
  if decide (j < length input) then
    '(flit, op') ← pipe_read op;
    Some (mkState i inp k ps op' (S j) (<[j := flit]> ob))
  else None.

Definition step_unit (u : Unit) (s : State) : option State :=
  match u with
  | Input2Pipe => step_Input2Pipe s
  | PrefixSum => step_PrefixSum s
  | Pipe2Output => step_Pipe2Output s
  end.

Definition step (s s' : State) : Prop := ∃ u, step_unit u s = Some s'.

Definition finished (u : Unit) (s : State) : Prop :=
  match u with
  | Input2Pipe => src_i s = length input
  | Pipe2Output => snk_i s = length input
  | PrefixSum => False
  end.

Definition blocked (u : Unit) (s : State) : Prop :=
  ¬ finished u s ∧ step_unit u s = None.

Definition completed (s : State) : Prop := snk_i s = length input.

Fixpoint run_schedule (sched : list Unit) (s : State) : State :=
  match sched with
  | [] => s
  | u :: sched' => run_schedule sched' (default s (step_unit u s))
  end.

Definition work_left (s : State) : nat :=
  4 * (length input - src_i s) + 3 * length (InPipe s)
  + match pc s with S_read => 0 | S_write _ => 2 end
  + length (OutPipe s).

(** *** The invariant of the system *)

(** Flits [prefixSumSimple] has read in the iteration under way. *)
Definition has_read (k : Pc) : nat :=
  match k with S_read => 0 | S_write _ => 1 end.

(** The stream on the output pipe. *)
Definition outs : list Flit := prefixSumSimple_run W 0%Z input.

Record Inv (s : State) (kS : nat) : Prop := mkInv {
  inv_src : src_i s ≤ length input;
  inv_S : kS + has_read (pc s) ≤ src_i s;
  inv_snk : snk_i s ≤ kS;
  inv_In :
    take (src_i s) input = take (kS + has_read (pc s)) input ++ InPipe s;
  inv_Out : take kS outs = take (snk_i s) outs ++ OutPipe s;
  inv_obuf : take (snk_i s) (odataBuf s) = take (snk_i s) outs;
  inv_obuf_len : length (odataBuf s) = length input;
  inv_pc :
    match pc s with
    | S_read => True
    | S_write o => outs !! kS = Some o
    end;
  inv_prefixSum :
    prefixSum s
    = prefixSumSimple_state W 0%Z (take (kS + has_read (pc s)) input)
}.

Definition Invariant (s : State) : Prop := ∃ kS, Inv s kS.

End System.

Definition round : list Unit := [Input2Pipe; PrefixSum; Pipe2Output].

End OneStage.

(* ------------------------------------------------------------------ *)
(** ** Overlapped iterations

    The loops of the kernels are marked [[intel::initiation_interval(1)]]:
    an iteration may start before the ones before it have finished.  In
    the systems below a kernel has any number of iterations under way, up
    to a bound.  Each iteration goes through its pipe operations in
    program order, and the iterations go through one and the same pipe
    operation in loop order.  The state a kernel carries across time
    ([sumSoFar], [prefixSum]) is read and updated in one step, by the
    iterations in loop order.  A step is one pipe operation of one
    iteration. *)
(* ------------------------------------------------------------------ *)

Module TwoStageOverlapped.

(** The eight pipe operations of the program: of [Input2Pipe], of
    [prefixSumA] (three), of [prefixSumB] (three) and of [Pipe2Output]. *)
Inductive Op : Type :=
| InPipe_write
| InPipe_read
| SumPipe_write
| DataPipe_write
| DataPipe_read
| SumPipe_read
| OutPipe_write
| OutPipe_read.

Record State : Type := mkState {
  src_i : nat;
  InPipe : list Flit;
  (* iterations of prefixSumA before [TSumPipe::write]: partialSum, iflit *)
  A_summed : list (Element * Flit);
  (* iterations of prefixSumA before [TDataPipe::write]: iflit *)
  A_forward : list Flit;
  SumPipe : list Element;
  DataPipe : list Flit;
  (* iterations of prefixSumB before [TSumPipe::read]: iflit *)
  B_waiting : list Flit;
  sumSoFar : Element;
  (* iterations of prefixSumB before [TOutPipe::write]: oflit *)
  B_ready : list Flit;
  OutPipe : list Flit;
  snk_i : nat;
  odataBuf : list Flit
}.

Section System.

Variable W : nat.
(** Iterations [prefixSumA] and [prefixSumB] can have under way. *)
Variable in_flight_A in_flight_B : nat.
Variable caps : Caps.
Variable input : list Flit.

Definition init : State :=
  mkState 0 [] [] [] [] [] [] 0%Z [] [] 0 (odataBuf_init W (length input)).

(** The pipe operation [o], by the oldest iteration that stands before
    it, if it can complete now. *)
Definition step_op (o : Op) (s : State) : option State :=
  let '(mkState i inp asum afwd sp dp bwait ssf brdy op j ob) := s in
  match o with
  | InPipe_write =>
      if decide (i < length input) then
        flit ← input !! i;
        inp' ← pipe_write (cap_In caps) inp flit;
        Some (mkState (S i) inp' asum afwd sp dp bwait ssf brdy op j ob)
      else None
  | InPipe_read =>
      if decide (length asum + length afwd < in_flight_A) then
        '(iflit, inp') ← pipe_read inp;
        Some (mkState i inp' (asum ++ [prefixSumA_tick W iflit]) afwd
                      sp dp bwait ssf brdy op j ob)
      else None
  | SumPipe_write =>
      match asum with
      | (partialSum, iflit) :: asum' =>
          sp' ← pipe_write (cap_Sum caps) sp partialSum;
          Some (mkState i inp asum' (afwd ++ [iflit]) sp' dp bwait ssf brdy
                        op j ob)
      | [] => None
      end
  | DataPipe_write =>
      match afwd with
      | iflit :: afwd' =>
          dp' ← pipe_write (cap_Data caps) dp iflit;
          Some (mkState i inp asum afwd' sp dp' bwait ssf brdy op j ob)
      | [] => None
      end
  | DataPipe_read =>
      if decide (length bwait + length brdy < in_flight_B) then
        '(iflit, dp') ← pipe_read dp;
        Some (mkState i inp asum afwd sp dp' (bwait ++ [iflit]) ssf brdy
                      op j ob)
      else None
  | SumPipe_read =>
      match bwait with
      | iflit :: bwait' =>
          '(partialSum, sp') ← pipe_read sp;
          let tick := prefixSumB_tick W ssf iflit partialSum in
          Some (mkState i inp asum afwd sp' dp bwait' tick.1
                        (brdy ++ [tick.2]) op j ob)
      | [] => None
      end
  | OutPipe_write =>
      match brdy with
      | oflit :: brdy' =>
          op' ← pipe_write (cap_Out caps) op oflit;
          Some (mkState i inp asum afwd sp dp bwait ssf brdy' op' j ob)
      | [] => None
      end
  | OutPipe_read =>
      if decide (j < length input) then
        '(flit, op') ← pipe_read op;
        Some (mkState i inp asum afwd sp dp bwait ssf brdy op' (S j)
                      (<[j := flit]> ob))
      else None
  end.

(** [eventSink.wait()] returns. *)
Definition completed (s : State) : Prop := snk_i s = length input.

(** The system driven through the pipe operations of [sched], in order;
    an operation that cannot complete lets its turn pass. *)
Fixpoint run_schedule (sched : list Op) (s : State) : State :=
  match sched with
  | [] => s
  | o :: sched' => run_schedule sched' (default s (step_op o s))
  end.

(** The streams inside [prefixSumA]. *)
Definition ticksA : list (Element * Flit) := prefixSumA_tick W <$> input.

(** Every pipe and every queue of iterations under way is a window on a
    stream fixed by the input; the eight counters say how often each
    pipe operation has completed. *)
Record Inv (s : State) (a1 a2 a3 b1 b2 b3 : nat) : Prop := mkInv {
  inv_order :
    snk_i s ≤ b3 ∧ b3 ≤ b2 ∧ b2 ≤ b1 ∧ b1 ≤ a3 ∧ a3 ≤ a2 ∧ a2 ≤ a1
    ∧ a1 ≤ src_i s ∧ src_i s ≤ length input;
  inv_In : take (src_i s) input = take a1 input ++ InPipe s;
  inv_A_summed : take a1 ticksA = take a2 ticksA ++ A_summed s;
  inv_A_forward : take a2 input = take a3 input ++ A_forward s;
  inv_Sum :
    take a2 (TwoStage.sums W input)
    = take b2 (TwoStage.sums W input) ++ SumPipe s;
  inv_Data : take a3 input = take b1 input ++ DataPipe s;
  inv_B_waiting : take b1 input = take b2 input ++ B_waiting s;
  inv_B_ready :
    take b2 (TwoStage.outs W input)
    = take b3 (TwoStage.outs W input) ++ B_ready s;
  inv_Out :
    take b3 (TwoStage.outs W input)
    = take (snk_i s) (TwoStage.outs W input) ++ OutPipe s;
  inv_obuf :
    take (snk_i s) (odataBuf s) = take (snk_i s) (TwoStage.outs W input);
  inv_obuf_len : length (odataBuf s) = length input;
  inv_sumSoFar :
    sumSoFar s = prefixSumSimple_state W 0%Z (take b2 input)
}.

Definition Invariant (s : State) : Prop :=
  ∃ a1 a2 a3 b1 b2 b3, Inv s a1 a2 a3 b1 b2 b3.

End System.

(** [prefixSumA] and [prefixSumB] one iteration at a time: a state of
    the system of [TwoStage] as a state with at most one iteration of
    each kernel under way. *)
Definition of_sequential (s : TwoStage.State) : State :=
  mkState (TwoStage.src_i s) (TwoStage.InPipe s)
    match TwoStage.pcA s with
    | TwoStage.A_writeSum iflit partialSum => [(partialSum, iflit)]
    | _ => []
    end
    match TwoStage.pcA s with
    | TwoStage.A_writeData iflit => [iflit]
    | _ => []
    end
    (TwoStage.SumPipe s) (TwoStage.DataPipe s)
    match TwoStage.pcB s with
    | TwoStage.B_readSum iflit => [iflit]
    | _ => []
    end
    (TwoStage.sumSoFar s)
    match TwoStage.pcB s with
    | TwoStage.B_write oflit => [oflit]
    | _ => []
    end
    (TwoStage.OutPipe s) (TwoStage.snk_i s) (TwoStage.odataBuf s).

(** The pipe operation a unit of [TwoStage] stands before. *)
Definition op_of (u : TwoStage.Unit) (s : TwoStage.State) : Op :=
  match u with
  | TwoStage.Input2Pipe => InPipe_write
  | TwoStage.PrefixSumA =>
      match TwoStage.pcA s with
      | TwoStage.A_read => InPipe_read
      | TwoStage.A_writeSum _ _ => SumPipe_write
      | TwoStage.A_writeData _ => DataPipe_write
      end
  | TwoStage.PrefixSumB =>
      match TwoStage.pcB s with
      | TwoStage.B_readData => DataPipe_read
      | TwoStage.B_readSum _ => SumPipe_read
      | TwoStage.B_write _ => OutPipe_write
      end
  | TwoStage.Pipe2Output => OutPipe_read
  end.

(** The pipe operations a schedule of [TwoStage] comes to, from the
    state [s] on. *)
Fixpoint ops_of (W : nat) (caps : Caps) (input : list Flit)
    (sched : list TwoStage.Unit) (s : TwoStage.State) : list Op :=
  match sched with
  | [] => []
  | u :: sched' =>
      op_of u s
      :: ops_of W caps input sched'
           (default s (TwoStage.step_unit W caps input u s))
  end.

End TwoStageOverlapped.

Module OneStageOverlapped.

(** The four pipe operations of the single-stage program: of
    [Input2Pipe], of [prefixSumSimple] (two) and of [Pipe2Output]. *)
Inductive Op : Type :=
| InPipe_write
| InPipe_read
| OutPipe_write
| OutPipe_read.

Record State : Type := mkState {
  src_i : nat;
  InPipe : list Flit;
  prefixSum : Element;
  (* iterations of prefixSumSimple before [TOutPipe::write]: oflit *)
  S_ready : list Flit;
  OutPipe : list Flit;
  snk_i : nat;
  odataBuf : list Flit
}.

Section System.

Variable W : nat.
(** Iterations [prefixSumSimple] can have under way. *)
Variable in_flight : nat.
Variable caps : Caps.
Variable input : list Flit.

Definition init : State :=
  mkState 0 [] 0%Z [] [] 0 (odataBuf_init W (length input)).

Definition step_op (o : Op) (s : State) : option State :=
  let '(mkState i inp ps rdy op j ob) := s in
  match o with
  | InPipe_write =>
      if decide (i < length input) then
        flit ← input !! i;
        inp' ← pipe_write (cap_In caps) inp flit;
        Some (mkState (S i) inp' ps rdy op j ob)
      else None
  | InPipe_read =>
      if decide (length rdy < in_flight) then
        '(iflit, inp') ← pipe_read inp;
        let tick := prefixSumSimple_tick W ps iflit in
        Some (mkState i inp' tick.1 (rdy ++ [tick.2]) op j ob)
      else None
  | OutPipe_write =>
      match rdy with
      | oflit :: rdy' =>
          op' ← pipe_write (cap_Out caps) op oflit;
          Some (mkState i inp ps rdy' op' j ob)
      | [] => None
      end
  | OutPipe_read =>
      if decide (j < length input) then
        '(flit, op') ← pipe_read op;
        Some (mkState i inp ps rdy op' (S j) (<[j := flit]> ob))
      else None
  end.

Definition completed (s : State) : Prop := snk_i s = length input.

Fixpoint run_schedule (sched : list Op) (s : State) : State :=
  match sched with
  | [] => s
  | o :: sched' => run_schedule sched' (default s (step_op o s))
  end.

Record Inv (s : State) (s1 s2 : nat) : Prop := mkInv {
  inv_order :
    snk_i s ≤ s2 ∧ s2 ≤ s1 ∧ s1 ≤ src_i s ∧ src_i s ≤ length input;
  inv_In : take (src_i s) input = take s1 input ++ InPipe s;
  inv_S_ready :
    take s1 (OneStage.outs W input)
    = take s2 (OneStage.outs W input) ++ S_ready s;
  inv_Out :
    take s2 (OneStage.outs W input)
    = take (snk_i s) (OneStage.outs W input) ++ OutPipe s;
  inv_obuf :
    take (snk_i s) (odataBuf s) = take (snk_i s) (OneStage.outs W input);
  inv_obuf_len : length (odataBuf s) = length input;
  inv_prefixSum :
    prefixSum s = prefixSumSimple_state W 0%Z (take s1 input)
}.

Definition Invariant (s : State) : Prop := ∃ s1 s2, Inv s s1 s2.

End System.

(** [prefixSumSimple] one iteration at a time: a state of the system of
    [OneStage] as a state with at most one iteration under way. *)
Definition of_sequential (s : OneStage.State) : State :=
  mkState (OneStage.src_i s) (OneStage.InPipe s) (OneStage.prefixSum s)
    match OneStage.pc s with
    | OneStage.S_write oflit => [oflit]
    | OneStage.S_read => []
    end
    (OneStage.OutPipe s) (OneStage.snk_i s) (OneStage.odataBuf s).

(** The pipe operation a unit of [OneStage] stands before. *)
Definition op_of (u : OneStage.Unit) (s : OneStage.State) : Op :=
  match u with
  | OneStage.Input2Pipe => InPipe_write
  | OneStage.PrefixSum =>
      match OneStage.pc s with
      | OneStage.S_read => InPipe_read
      | OneStage.S_write _ => OutPipe_write
      end
  | OneStage.Pipe2Output => OutPipe_read
  end.

(** The pipe operations a schedule of [OneStage] comes to, from the
    state [s] on. *)
Fixpoint ops_of (W : nat) (caps : Caps) (input : list Flit)
    (sched : list OneStage.Unit) (s : OneStage.State) : list Op :=
  match sched with
  | [] => []
  | u :: sched' =>
      op_of u s
      :: ops_of W caps input sched'
           (default s (OneStage.step_unit W caps input u s))
  end.

End OneStageOverlapped.

(** Schedules of the overlapped systems for [scenario1] in which both
    flits pass every pipe operation side by side. *)
Definition side_by_side2 : list TwoStageOverlapped.Op :=
  [TwoStageOverlapped.InPipe_write; TwoStageOverlapped.InPipe_write;
   TwoStageOverlapped.InPipe_read; TwoStageOverlapped.InPipe_read;
   TwoStageOverlapped.SumPipe_write; TwoStageOverlapped.SumPipe_write;
   TwoStageOverlapped.DataPipe_write; TwoStageOverlapped.DataPipe_write;
   TwoStageOverlapped.DataPipe_read; TwoStageOverlapped.DataPipe_read;
   TwoStageOverlapped.SumPipe_read; TwoStageOverlapped.SumPipe_read;
   TwoStageOverlapped.OutPipe_write; TwoStageOverlapped.OutPipe_write;
   TwoStageOverlapped.OutPipe_read; TwoStageOverlapped.OutPipe_read].

Definition side_by_side1 : list OneStageOverlapped.Op :=
  [OneStageOverlapped.InPipe_write; OneStageOverlapped.InPipe_write;
   OneStageOverlapped.InPipe_read; OneStageOverlapped.InPipe_read;
   OneStageOverlapped.OutPipe_write; OneStageOverlapped.OutPipe_write;
   OneStageOverlapped.OutPipe_read; OneStageOverlapped.OutPipe_read].

(* ------------------------------------------------------------------ *)
(** ** The checking loop at the end of [main] *)
(* ------------------------------------------------------------------ *)

(** [buf[i]] on a host accessor; the loops stay inside the buffers. *)
Definition flit_at (buf : list Flit) (i : nat) : Flit :=
  default (mkFlit []) (buf !! i).

(** The lanes the checking loop visits in [buf], for the flit indices [ks]
    in order. *)
Definition lanes_of (W : nat) (buf : list Flit) (ks : list nat)
  : list Element :=
  concat (lanes W ∘ flit_at buf <$> ks).

Section Checking.

Variable W : nat.

(** Inner loop, over the lanes [js] still to compare:
    [prefixSum += idataPtr[..].element[j];
     if (prefixSum != odataPtr[..].element[j]) { ...; return 1; }]
    [None] is the early [return 1]. *)
Fixpoint check_lanes (iflit oflit : Flit) (js : list nat)
    (prefixSum : Element) : option Element :=
  match js with
  | [] => Some prefixSum
  | j :: js' =>
      let prefixSum' := Element_add prefixSum (lane iflit j) in
      if decide (prefixSum' ≠ lane oflit j) then None
      else check_lanes iflit oflit js' prefixSum'
  end.

(** Outer loop, over the flit indices [ks] still to visit. *)
Fixpoint check_flits (idata odata : list Flit) (ks : list nat)
    (prefixSum : Element) : option Element :=
  match ks with
  | [] => Some prefixSum
  | k :: ks' =>
      prefixSum' ← check_lanes (flit_at idata k) (flit_at odata k)
                               (seq 0 W) prefixSum;
      check_flits idata odata ks' prefixSum'
  end.

(** What the block prints on [std::cout] and the status [main] returns:
    ["Sum incorrect."] and 1 at the first lane that differs; nothing
    and, after the timing lines, 0 when no lane differs.  The loop makes
    [n] trips, one for each flit of the stream ([STRM_LEN / STRM_WIDTH]
    in [main]); the buffers may be longer, as [main]'s are. *)
Definition main_check (n : nat) (idata odata : list Flit) : list string * Z :=
  match check_flits idata odata (seq 0 n) 0%Z with
  | None => (["Sum incorrect."%string], 1%Z)
  | Some _ => ([], 0%Z)
  end.

End Checking.

(** Following the spec's words for a failed comparison: the first index at
    which the output differs from the reference prefix sum, with the
    expected and the actual value there. *)
Fixpoint first_mismatch_from (i : nat) (expected actual : list Element)
  : option (nat * Element * Element) :=
  match expected, actual with
  | e :: es, a :: acts =>
      if decide (e = a) then first_mismatch_from (S i) es acts
      else Some (i, e, a)
  | _, _ => None
  end.

Definition first_mismatch (idata odata : list Flit)
  : option (nat * Element * Element) :=
  first_mismatch_from 0 (prefix_sums (unpack idata)) (unpack odata).

(* ------------------------------------------------------------------ *)
(** ** Test data *)
(* ------------------------------------------------------------------ *)

(** The stream of the spec's first scenario, four lanes to a flit. *)
Definition scenario1 : list Flit := pack 4 [1; 2; 3; 4; 5; 6; 7; 8]%Z.

(** One flit of the width [main.cpp] is compiled for. *)
Definition one_flit : list Flit :=
  pack STRM_WIDTH [1; 2; 3; 4; 5; 6; 7; 8]%Z.

(** Two output buffers for [scenario1] that are wrong in one place each:
    at element 0 and at element 7. *)
Definition wrong_at_0 : list Flit :=
  [mkFlit [0; 3; 6; 10]%Z; mkFlit [15; 21; 28; 36]%Z].

Definition wrong_at_7 : list Flit :=
  [mkFlit [1; 3; 6; 10]%Z; mkFlit [15; 21; 28; 99]%Z].

(** Round-robin schedules of [n] rounds. *)
Definition rounds2 (n : nat) : list TwoStage.Unit :=
  concat (replicate n TwoStage.round).

Definition rounds1 (n : nat) : list OneStage.Unit :=
  concat (replicate n OneStage.round).

(* ------------------------------------------------------------------ *)
(** ** The host side of [main]: buffers and the program as a whole *)
(* ------------------------------------------------------------------ *)

(** [#define STRM_LEN (1 << 24)] *)
Definition STRM_LEN : Z := Z.shiftl 1 24.

(** An entry of a [std::vector<Flit>] as its constructor leaves it. *)
Definition Flit_zero (W : nat) : Flit := mkFlit (replicate W 0%Z).

(** [std::vector<Flit> idataBuf(2 * STRM_LEN / STRM_WIDTH);] *)
Definition host_alloc (W strm_len : nat) : list Flit :=
  replicate (2 * strm_len / W) (Flit_zero W).

(** [buf[k].element[j] = v;] *)
Definition set_elem (buf : list Flit) (k j : nat) (v : Element) : list Flit :=
  alter (λ f, set_lane f j v) k buf.

(** Body of the initialising loop:
    [idataBuf[i / STRM_WIDTH].element[i % STRM_WIDTH] = i;
     odataBuf[i / STRM_WIDTH].element[i % STRM_WIDTH] = 0x0;] *)
Definition host_init_body (W : nat) (bufs : list Flit * list Flit) (i : nat)
  : list Flit * list Flit :=
  (set_elem bufs.1 (i / W) (i mod W) (wrap (Z.of_nat i)),
   set_elem bufs.2 (i / W) (i mod W) 0%Z).

(** [for (int64_t i = 0; i < STRM_LEN; i++) { ... }] on the two fresh
    buffers: [idataBuf] and [odataBuf] as the kernels find them. *)
Definition host_init (W strm_len : nat) : list Flit * list Flit :=
  foldl (host_init_body W) (host_alloc W strm_len, host_alloc W strm_len)
        (seq 0 strm_len).

(** What [idataBuf] holds after [m] rounds of the initialising loop. *)
Definition idataBuf_after (W strm_len m : nat) : list Flit :=
  (λ k, mkFlit ((λ j, if decide (k * W + j < m)
                      then wrap (Z.of_nat (k * W + j)) else 0%Z)
                <$> seq 0 W))
  <$> seq 0 (2 * strm_len / W).

(** [main] with the two-stage pipeline, from the buffers the host sets up
    to the status it returns.  The loops of source, sink and check make
    one trip for every multiple of [STRM_WIDTH] below [STRM_LEN] and so
    see the first entries of the buffers only; [None] says the schedule
    ends before [eventSink.wait()] can return. *)
Definition main_two_stage (W strm_len : nat) (caps : Caps)
    (sched : list TwoStage.Unit) : option (list string * Z) :=
  let '(idataBuf, odataBuf) := host_init W strm_len in
  let n := trip_count W strm_len in
  let input := take n idataBuf in
  let s := TwoStage.run_schedule W caps input sched (TwoStage.init W input) in
  if decide (TwoStage.snk_i s = n) then
    match check_flits W idataBuf (TwoStage.odataBuf s ++ drop n odataBuf)
                      (seq 0 n) 0%Z with
    | None => Some (["Sum incorrect."%string], 1%Z)
    | Some _ => Some ([], 0%Z)
    end
  else None.



(** A buffer as [main] allocates it for a stream of [flits]: twice as
    long, the second half zero. *)
Definition main_shaped (W : nat) (flits : list Flit) : list Flit :=
  flits ++ replicate (length flits) (Flit_zero W).

(** Turns of a schedule of the single-stage pipeline in which the unit
    did step. *)
Fixpoint steps_taken1 (W : nat) (caps : Caps) (input : list Flit)
    (sched : list OneStage.Unit) (s : OneStage.State) : nat :=
  match sched with
  | [] => 0
  | u :: sched' =>
      match OneStage.step_unit W caps input u s with
      | Some s' => S (steps_taken1 W caps input sched' s')
      | None => steps_taken1 W caps input sched' s
      end
  end.

(** The stream of the first natural numbers, [W] lanes to a flit: what
    the host puts into the first half of [idataBuf]. *)
Definition naturals (W strm_len : nat) : list Flit :=
  pack W ((λ i, wrap (Z.of_nat i)) <$> seq 0 strm_len).

(* ------------------------------------------------------------------ *)
(** ** Proof steps that recur *)
(* ------------------------------------------------------------------ *)

(** Bring the iteration counts [k + 0] and [k + 1] to [k] and [S k]. *)
Ltac norm_counts := rewrite ?Nat.add_0_r, ?Nat.add_1_r in *.

(** Rebuild an invariant field by field; the fields a step leaves alone
    are closed by the hypotheses, the bounds by arithmetic. *)
Ltac close_Inv := constructor; simpl; norm_counts; try done; try lia.

(* ================================================================== *)
(** * Arithmetic of [Element] *)
(* ================================================================== *)

Lemma Element_modulus_pos : (0 < Element_modulus)%Z.
Proof. reflexivity. Qed.

Lemma wrap_ok z : Element_ok (wrap z).
Proof. apply Z.mod_pos_bound, Element_modulus_pos. Qed.

Lemma wrap_id z : Element_ok z → wrap z = z.
Proof. intros H. apply Z.mod_small, H. Qed.

Lemma Element_add_ok a b : Element_ok (Element_add a b).
Proof. apply wrap_ok. Qed.

Lemma Element_add_wrap_l a b : Element_add (wrap a) b = wrap (a + b).
Proof. unfold Element_add, wrap. apply Zplus_mod_idemp_l. Qed.

Lemma Element_add_wrap_r a b : Element_add a (wrap b) = wrap (a + b).
Proof. unfold Element_add, wrap. apply Zplus_mod_idemp_r. Qed.

Lemma Zsum_app l k : Zsum (l ++ k) = (Zsum l + Zsum k)%Z.
Proof. unfold Zsum. induction l as [|x l IH]; simpl; lia. Qed.

Lemma Zsum_snoc l x : Zsum (l ++ [x]) = (Zsum l + x)%Z.
Proof. rewrite Zsum_app. simpl. lia. Qed.

(* ================================================================== *)
(** * One iteration of a kernel *)
(* ================================================================== *)

Lemma lanes_S W f : lanes (S W) f = lanes W f ++ [lane f W].
Proof. unfold lanes. rewrite seq_S, fmap_app. reflexivity. Qed.

Lemma length_lanes W f : length (lanes W f) = W.
Proof. unfold lanes. by rewrite length_fmap, length_seq. Qed.

Lemma lanes_ok W f : Flit_ok W f → lanes W f = element f.
Proof.
  unfold Flit_ok. intros Hlen. apply list_eq. intros i.
  unfold lanes. rewrite list_lookup_fmap.
  destruct (decide (i < W)) as [Hi|Hi].
  - rewrite lookup_seq_lt by done. change (0 + i) with i. unfold lane.
    destruct (lookup_lt_is_Some_2 (element f) i) as [x Hx]; [lia|].
    simpl. by rewrite Hx.
  - rewrite lookup_seq_ge by lia. simpl. symmetry.
    apply lookup_ge_None. lia.
Qed.

Lemma take_lanes W f k : k ≤ W → take k (lanes W f) = lanes k f.
Proof.
  intros Hk. unfold lanes. rewrite <- fmap_take. f_equal.
  rewrite take_seq. f_equal. lia.
Qed.

(** The loop of [prefixSumA] adds up the lanes. *)
Lemma sum_loop_fold f p n :
  Element_ok p →
  foldl (λ q i, Element_add q (lane f i)) p (seq 0 n)
  = wrap (p + Zsum (lanes n f)).
Proof.
  intros Hp. induction n as [|n IH].
  - simpl. rewrite Z.add_0_r. symmetry. by apply wrap_id.
  - rewrite seq_S, foldl_app, IH, lanes_S, Zsum_snoc. simpl.
    rewrite Element_add_wrap_l. f_equal. lia.
Qed.

Lemma sum_loop_spec W f p :
  Element_ok p → sum_loop W f p = wrap (p + Zsum (lanes W f)).
Proof. apply sum_loop_fold. Qed.

Lemma length_scanned p f n : length (scanned p f n) = n.
Proof. unfold scanned. by rewrite length_fmap, length_seq. Qed.

Lemma scanned_S p f n :
  scanned p f (S n) = scanned p f n ++ [wrap (p + Zsum (lanes (S n) f))].
Proof. unfold scanned. by rewrite seq_S, fmap_app. Qed.

Lemma scan_loop_fold f p o n :
  Element_ok p → n ≤ length (element o) →
  foldl (scan_body f) (p, o) (seq 0 n)
  = (wrap (p + Zsum (lanes n f)),
     mkFlit (scanned p f n ++ drop n (element o))).
Proof.
  intros Hp. induction n as [|n IH]; intros Hn.
  - cbn. rewrite Z.add_0_r, wrap_id by done. by destruct o.
  - rewrite seq_S, foldl_app, IH by lia. cbn [foldl].
    unfold scan_body. cbn [fst snd]. rewrite Element_add_wrap_l.
    rewrite lanes_S, Zsum_snoc, Z.add_assoc. f_equal.
    unfold set_lane. cbn [element]. f_equal.
    destruct (lookup_lt_is_Some_2 (element o) n) as [x Hx]; [lia|].
    rewrite (drop_S _ _ _ Hx).
    rewrite insert_app_r_alt by (rewrite length_scanned; lia).
    rewrite length_scanned, Nat.sub_diag. cbn [insert list_insert].
    rewrite scanned_S, lanes_S, Zsum_snoc, <- app_assoc. cbn [app].
    by rewrite Z.add_assoc.
Qed.

Lemma scan_loop_spec W f p o :
  Element_ok p → Flit_ok W o →
  scan_loop W f p o = (wrap (p + Zsum (lanes W f)), mkFlit (scanned p f W)).
Proof.
  unfold Flit_ok, scan_loop. intros Hp Ho.
  rewrite scan_loop_fold by (done || lia).
  rewrite drop_ge by lia. by rewrite app_nil_r.
Qed.

(** What [oflit] holds before the loop does not reach the output. *)
Lemma scan_loop_init_irrelevant W f p o o' :
  Element_ok p → Flit_ok W o → Flit_ok W o' →
  scan_loop W f p o = scan_loop W f p o'.
Proof. intros. by rewrite !scan_loop_spec. Qed.

Lemma Flit_uninit_ok W : Flit_ok W (Flit_uninit W).
Proof. unfold Flit_ok, Flit_uninit. simpl. apply length_replicate. Qed.

Lemma prefixSumSimple_tick_spec W p f :
  Element_ok p →
  prefixSumSimple_tick W p f
  = (wrap (p + Zsum (lanes W f)), mkFlit (scanned p f W)).
Proof.
  intros Hp. unfold prefixSumSimple_tick.
  apply scan_loop_spec; [done | apply Flit_uninit_ok].
Qed.

Lemma prefixSumA_tick_spec W f :
  prefixSumA_tick W f = (wrap (Zsum (lanes W f)), f).
Proof.
  unfold prefixSumA_tick. rewrite sum_loop_spec; [done|].
  unfold Element_ok. split; [done | reflexivity].
Qed.

Lemma prefixSumB_tick_spec W s f q :
  Element_ok s →
  prefixSumB_tick W s f q = (Element_add s q, mkFlit (scanned s f W)).
Proof.
  intros Hs. unfold prefixSumB_tick.
  by rewrite scan_loop_spec by (done || apply Flit_uninit_ok).
Qed.

(** Fed the sum [prefixSumA] computed for the same flit, one iteration of
    [prefixSumB] is one iteration of [prefixSumSimple]. *)
Lemma prefixSumB_tick_after_A W s f :
  Element_ok s →
  prefixSumB_tick W s f (fst (prefixSumA_tick W f))
  = prefixSumSimple_tick W s f.
Proof.
  intros Hs.
  rewrite prefixSumB_tick_spec, prefixSumA_tick_spec, prefixSumSimple_tick_spec
    by done.
  cbn [fst]. by rewrite Element_add_wrap_r.
Qed.

Lemma prefixSumSimple_tick_ok W p f :
  Element_ok p → Element_ok (fst (prefixSumSimple_tick W p f)).
Proof. intros Hp. rewrite prefixSumSimple_tick_spec by done. apply wrap_ok. Qed.

Lemma Element_ok_0 : Element_ok 0.
Proof. split; [done | reflexivity]. Qed.

(* ================================================================== *)
(** * Kernels as stream functions *)
(* ================================================================== *)

Section Streams.

Variable W : nat.

Lemma prefixSumSimple_state_snoc p l f :
  prefixSumSimple_state W p (l ++ [f])
  = fst (prefixSumSimple_tick W (prefixSumSimple_state W p l) f).
Proof. unfold prefixSumSimple_state. by rewrite foldl_app. Qed.

Lemma prefixSumSimple_state_cons p l f :
  prefixSumSimple_state W p (f :: l)
  = prefixSumSimple_state W (fst (prefixSumSimple_tick W p f)) l.
Proof. reflexivity. Qed.

Lemma prefixSumSimple_state_ok p l :
  Element_ok p → Element_ok (prefixSumSimple_state W p l).
Proof.
  revert p. induction l as [|f l IH]; intros p Hp; [done|].
  rewrite prefixSumSimple_state_cons. by apply IH, prefixSumSimple_tick_ok.
Qed.

Lemma prefixSumSimple_state_take_S p l k f :
  l !! k = Some f →
  prefixSumSimple_state W p (take (S k) l)
  = fst (prefixSumSimple_tick W (prefixSumSimple_state W p (take k l)) f).
Proof.
  intros Hf. by rewrite (take_S_r _ _ _ Hf), prefixSumSimple_state_snoc.
Qed.

Lemma length_prefixSumSimple_run p l :
  length (prefixSumSimple_run W p l) = length l.
Proof.
  revert p. induction l as [|f l IH]; intros p; [done|].
  cbn [prefixSumSimple_run]. destruct (prefixSumSimple_tick W p f).
  cbn [length]. by rewrite IH.
Qed.

(** Output [k] of [prefixSumSimple] is made from input [k] and the state
    the first [k] iterations leave. *)
Lemma prefixSumSimple_run_lookup p l k f :
  l !! k = Some f →
  prefixSumSimple_run W p l !! k
  = Some (snd (prefixSumSimple_tick W (prefixSumSimple_state W p (take k l)) f)).
Proof.
  revert p k. induction l as [|g l IH]; intros p k Hf; [done|].
  cbn [prefixSumSimple_run].
  destruct (prefixSumSimple_tick W p g) as [p' o] eqn:Hg.
  destruct k as [|k].
  - injection Hf as ->. cbn. by rewrite Hg.
  - cbn in Hf. cbn [take]. rewrite prefixSumSimple_state_cons, Hg.
    cbn [fst]. rewrite lookup_cons. by apply IH.
Qed.

Lemma prefixSumSimple_run_lookup_None p l k :
  l !! k = None → prefixSumSimple_run W p l !! k = None.
Proof.
  intros H. apply lookup_ge_None. rewrite length_prefixSumSimple_run.
  by apply lookup_ge_None.
Qed.

(** The pipes between [prefixSumA] and [prefixSumB] carry, entry by
    entry, the sum of a flit and that flit. *)
Lemma prefixSumA_forwards (l : list Flit) :
  snd ∘ prefixSumA_tick W <$> l = l.
Proof. induction l as [|f l IH]; [done|]. cbn. by rewrite IH. Qed.

Lemma prefixSumA_run_spec l :
  prefixSumA_run W l = ((λ f, wrap (Zsum (lanes W f))) <$> l, l).
Proof.
  unfold prefixSumA_run. rewrite prefixSumA_forwards. f_equal.
  apply list_fmap_ext. intros i f _. unfold compose.
  by rewrite prefixSumA_tick_spec.
Qed.

Lemma prefixSumB_after_A_run s l :
  Element_ok s →
  prefixSumB_run W s l (fst ∘ prefixSumA_tick W <$> l)
  = prefixSumSimple_run W s l.
Proof.
  revert s. induction l as [|f l IH]; intros s Hs; [done|].
  cbn [fmap list_fmap prefixSumB_run prefixSumSimple_run compose].
  rewrite prefixSumB_tick_after_A by done.
  pose proof (prefixSumSimple_tick_ok W s f Hs) as Hok.
  destruct (prefixSumSimple_tick W s f) as [s' o]. f_equal. by apply IH.
Qed.

Lemma prefixSumB_after_A_state s l :
  Element_ok s →
  prefixSumB_state W s l (fst ∘ prefixSumA_tick W <$> l)
  = prefixSumSimple_state W s l.
Proof.
  revert s. induction l as [|f l IH]; intros s Hs; [done|].
  cbn [fmap list_fmap prefixSumB_state compose].
  rewrite prefixSumB_tick_after_A, prefixSumSimple_state_cons by done.
  by apply IH, prefixSumSimple_tick_ok.
Qed.

Lemma prefixSumAB_run_simple l :
  prefixSumAB_run W l = prefixSumSimple_run W 0 l.
Proof.
  unfold prefixSumAB_run, prefixSumA_run. rewrite prefixSumA_forwards.
  apply prefixSumB_after_A_run, Element_ok_0.
Qed.

End Streams.

(* ================================================================== *)
(** * Pipes as windows on a stream *)
(* ================================================================== *)

Section Fifo.

Context {T : Type}.
Implicit Types (l q : list T).

Lemma pipe_write_Some cap q x q' :
  pipe_write cap q x = Some q' ↔ length q < cap ∧ q' = q ++ [x].
Proof.
  unfold pipe_write. case_decide; split.
  - intros [= <-]. done.
  - intros [_ ->]. done.
  - done.
  - intros [? _]. lia.
Qed.

Lemma pipe_write_None cap q x :
  pipe_write cap q x = None ↔ cap ≤ length q.
Proof. unfold pipe_write. case_decide; split; (done || lia). Qed.

Lemma pipe_read_Some q x q' :
  pipe_read q = Some (x, q') ↔ q = x :: q'.
Proof. destruct q; simpl; split; intros [=]; by subst. Qed.

Lemma pipe_read_None q : pipe_read q = None ↔ q = [].
Proof. by destruct q. Qed.

(** The writer appends the next entry of the stream. *)
Lemma fifo_push l w r q x :
  take w l = take r l ++ q → l !! w = Some x →
  take (S w) l = take r l ++ (q ++ [x]).
Proof.
  intros H Hx. by rewrite (take_S_r _ _ _ Hx), H, app_assoc.
Qed.

(** The reader removes the entry of the stream it is due to see. *)
Lemma fifo_pop l w r q x :
  take w l = take r l ++ x :: q →
  l !! r = Some x ∧ take w l = take (S r) l ++ q.
Proof.
  intros H.
  assert (r < length l) as Hr.
  { apply (f_equal length) in H.
    rewrite length_app, !length_take in H. simpl in H. lia. }
  assert (l !! r = Some x) as Hx.
  { assert (take w l !! r = Some x) as Hx.
    { rewrite H, lookup_app_r by (rewrite length_take; lia).
      rewrite length_take, Nat.min_l, Nat.sub_diag by lia. done. }
    by apply lookup_take_Some in Hx as [Hx _]. }
  split; [done|].
  by rewrite (take_S_r _ _ _ Hx), H, <- app_assoc.
Qed.

Lemma fifo_length l w r q :
  take w l = take r l ++ q → r ≤ w → w ≤ length l → length q = w - r.
Proof.
  intros H Hr Hw. apply (f_equal length) in H.
  rewrite length_app, !length_take in H. lia.
Qed.

End Fifo.

(* ================================================================== *)
(** * The two-stage pipeline: invariant *)
(* ================================================================== *)

Section TwoStage_invariant.

Import TwoStage.

Variable W : nat.
Variable caps : Caps.
Variable input : list Flit.

Lemma length_odataBuf_init n : length (odataBuf_init W n) = n.
Proof. apply length_replicate. Qed.

Lemma sums_lookup k f :
  input !! k = Some f →
  sums W input !! k = Some (fst (prefixSumA_tick W f)).
Proof. intros H. unfold sums. by rewrite list_lookup_fmap, H. Qed.

Lemma sums_lookup_inv k p :
  sums W input !! k = Some p →
  ∃ f, input !! k = Some f ∧ p = fst (prefixSumA_tick W f).
Proof.
  unfold sums. rewrite list_lookup_fmap. intros H.
  destruct (input !! k) as [f|]; [|done]. injection H as <-. by exists f.
Qed.

Lemma Inv_init : Inv W input (init W input) 0 0.
Proof.
  constructor; simpl; try done; try lia.
  apply length_odataBuf_init.
Qed.

Lemma Inv_step_Input2Pipe s s' kA kB :
  Inv W input s kA kB → step_Input2Pipe caps input s = Some s' →
  Inv W input s' kA kB.
Proof.
  intros [] Hstep. destruct s as [i inp a sp dp b ssf op j ob].
  simpl in *. case_decide; [|done].
  destruct (input !! i) as [flit|] eqn:Hflit; [|done]. simpl in Hstep.
  destruct (pipe_write _ _ _) as [inp'|] eqn:Hw; [|done].
  apply pipe_write_Some in Hw as [_ ->]. injection Hstep as <-.
  constructor; simpl; try done; try lia.
  by apply fifo_push.
Qed.

Lemma Inv_step_PrefixSumA s s' kA kB :
  Inv W input s kA kB → step_PrefixSumA W caps s = Some s' →
  ∃ kA', Inv W input s' kA' kB.
Proof.
  intros [] Hstep. destruct s as [i inp a sp dp b ssf op j ob].
  simpl in *. destruct a as [|f p|f]; simpl in *; norm_counts.
  - destruct (pipe_read inp) as [[iflit inp']|] eqn:Hr; [|done].
    apply pipe_read_Some in Hr as ->. simpl in Hstep.
    injection Hstep as <-.
    apply fifo_pop in inv_In0 as [Hf Hin].
    exists kA. close_Inv.
    apply (f_equal length) in Hin.
    rewrite length_app, !length_take in Hin.
    apply lookup_lt_Some in Hf. lia.
  - destruct (pipe_write _ _ _) as [sp'|] eqn:Hw; [|done].
    apply pipe_write_Some in Hw as [_ ->]. injection Hstep as <-.
    destruct inv_pcA0 as [Hf ->].
    exists kA. close_Inv.
    apply fifo_push; [done|]. by apply sums_lookup.
  - destruct (pipe_write _ _ _) as [dp'|] eqn:Hw; [|done].
    apply pipe_write_Some in Hw as [_ ->]. injection Hstep as <-.
    exists (S kA). close_Inv.
    by apply fifo_push.
Qed.

Lemma Element_add_partialSum s f :
  Element_ok s →
  Element_add s (prefixSumA_tick W f).1 = (prefixSumSimple_tick W s f).1.
Proof. intros Hs. by rewrite <- prefixSumB_tick_after_A. Qed.

Lemma Inv_sumSoFar_ok s kA kB : Inv W input s kA kB → Element_ok (sumSoFar s).
Proof.
  intros []. rewrite inv_sumSoFar0.
  apply prefixSumSimple_state_ok, Element_ok_0.
Qed.

Lemma Inv_step_PrefixSumB s s' kA kB :
  Inv W input s kA kB → step_PrefixSumB W caps s = Some s' →
  ∃ kB', Inv W input s' kA kB'.
Proof.
  intros HI Hstep. pose proof (Inv_sumSoFar_ok _ _ _ HI) as Hok.
  destruct HI. destruct s as [i inp a sp dp b ssf op j ob].
  simpl in *. destruct b as [|f|o]; simpl in *; norm_counts.
  - destruct (pipe_read dp) as [[iflit dp']|] eqn:Hr; [|done].
    apply pipe_read_Some in Hr as ->. simpl in Hstep.
    injection Hstep as <-.
    apply fifo_pop in inv_Data0 as [Hf Hin].
    exists kB. close_Inv.
    apply (f_equal length) in Hin.
    rewrite length_app, !length_take in Hin.
    apply lookup_lt_Some in Hf. lia.
  - destruct (pipe_read sp) as [[p sp']|] eqn:Hr; [|done].
    apply pipe_read_Some in Hr as ->. simpl in Hstep.
    apply fifo_pop in inv_Sum0 as [Hp Hsum].
    apply sums_lookup_inv in Hp as (f' & Hf' & ->).
    assert (f' = f) as -> by congruence.
    rewrite Element_add_partialSum in Hstep by done.
    change (scan_loop W f ssf (Flit_uninit W))
      with (prefixSumSimple_tick W ssf f) in Hstep.
    destruct (prefixSumSimple_tick W ssf f) as [ssf' oflit] eqn:Htick.
    injection Hstep as <-.
    exists kB. close_Inv.
    + unfold outs. rewrite (prefixSumSimple_run_lookup _ _ _ _ _ inv_pcB0).
      by rewrite <- inv_sumSoFar0, Htick.
    + rewrite (prefixSumSimple_state_take_S _ _ _ _ _ inv_pcB0).
      by rewrite <- inv_sumSoFar0, Htick.
  - destruct (pipe_write _ _ _) as [op'|] eqn:Hw; [|done].
    apply pipe_write_Some in Hw as [_ ->]. injection Hstep as <-.
    exists (S kB). close_Inv.
    by apply fifo_push.
Qed.

Lemma length_outs : length (outs W input) = length input.
Proof. apply length_prefixSumSimple_run. Qed.

Lemma Inv_step_Pipe2Output s s' kA kB :
  Inv W input s kA kB → step_Pipe2Output input s = Some s' →
  Inv W input s' kA kB.
Proof.
  intros [] Hstep. destruct s as [i inp a sp dp b ssf op j ob].
  simpl in *. case_decide; [|done].
  destruct (pipe_read op) as [[flit op']|] eqn:Hr; [|done].
  apply pipe_read_Some in Hr as ->. simpl in Hstep.
  injection Hstep as <-.
  apply fifo_pop in inv_Out0 as [Hf Hout].
  close_Inv.
  - apply (f_equal length) in Hout.
    rewrite length_app, !length_take, length_outs in Hout.
    apply lookup_lt_Some in Hf. lia.
  - rewrite (take_S_r _ _ _ Hf), <- inv_obuf0.
    rewrite (take_S_r _ _ flit).
    + by rewrite take_insert_ge.
    + apply list_lookup_insert_eq. lia.
  - by rewrite length_insert.
Qed.

Lemma Invariant_step s s' :
  Invariant W input s → step W caps input s s' → Invariant W input s'.
Proof.
  intros (kA & kB & HI) [u Hu]. destruct u; simpl in Hu.
  - exists kA, kB. by eapply Inv_step_Input2Pipe.
  - destruct (Inv_step_PrefixSumA _ _ _ _ HI Hu) as [kA' ?]. by exists kA', kB.
  - destruct (Inv_step_PrefixSumB _ _ _ _ HI Hu) as [kB' ?]. by exists kA, kB'.
  - exists kA, kB. by eapply Inv_step_Pipe2Output.
Qed.

Lemma Invariant_reachable s :
  rtc (step W caps input) (init W input) s → Invariant W input s.
Proof.
  revert s. apply rtc_ind_r.
  - exists 0, 0. apply Inv_init.
  - intros s s' _ Hstep HI. by eapply Invariant_step.
Qed.

End TwoStage_invariant.

(* ================================================================== *)
(** * The two-stage pipeline: termination and absence of deadlock *)
(* ================================================================== *)

Section TwoStage_progress.

Import TwoStage.

Variable W : nat.
Variable caps : Caps.
Variable input : list Flit.

(** Every step is one of the eight steps a flit takes through the
    system. *)
Lemma work_left_step s s' :
  step W caps input s s' → work_left input s = S (work_left input s').
Proof.
  intros [u Hu]. destruct s as [i inp a sp dp b ssf op j ob].
  unfold work_left. destruct u; simpl in *.
  - case_decide; [|done].
    destruct (input !! i) as [flit|]; [|done]. simpl in Hu.
    destruct (pipe_write _ _ _) as [inp'|] eqn:Hw; [|done].
    apply pipe_write_Some in Hw as [_ ->]. injection Hu as <-. simpl.
    rewrite length_app. simpl. lia.
  - destruct a as [|f p|f]; simpl in *.
    + destruct (pipe_read inp) as [[iflit inp']|] eqn:Hr; [|done].
      apply pipe_read_Some in Hr as ->. injection Hu as <-. simpl. lia.
    + destruct (pipe_write _ _ _) as [sp'|] eqn:Hw; [|done].
      apply pipe_write_Some in Hw as [_ ->]. injection Hu as <-. simpl.
      rewrite length_app. simpl. lia.
    + destruct (pipe_write _ _ _) as [dp'|] eqn:Hw; [|done].
      apply pipe_write_Some in Hw as [_ ->]. injection Hu as <-. simpl.
      rewrite length_app. simpl. lia.
  - destruct b as [|f|o]; simpl in *.
    + destruct (pipe_read dp) as [[iflit dp']|] eqn:Hr; [|done].
      apply pipe_read_Some in Hr as ->. injection Hu as <-. simpl. lia.
    + destruct (pipe_read sp) as [[p sp']|] eqn:Hr; [|done].
      apply pipe_read_Some in Hr as ->. injection Hu as <-. simpl. lia.
    + destruct (pipe_write _ _ _) as [op'|] eqn:Hw; [|done].
      apply pipe_write_Some in Hw as [_ ->]. injection Hu as <-. simpl.
      rewrite length_app. simpl. lia.
  - case_decide; [|done].
    destruct (pipe_read op) as [[flit op']|] eqn:Hr; [|done].
    apply pipe_read_Some in Hr as ->. injection Hu as <-. simpl. lia.
Qed.

(** An execution of [k] steps has used up [k] of the [8 * n] steps the
    system starts with. *)
Lemma work_left_nsteps k s s' :
  nsteps (step W caps input) k s s' →
  work_left input s = k + work_left input s'.
Proof.
  induction 1 as [|k s s1 s' Hstep _ IH]; [done|].
  rewrite (work_left_step _ _ Hstep), IH. lia.
Qed.

Lemma work_left_init : work_left input (init W input) = 8 * length input.
Proof. unfold work_left. simpl. lia. Qed.

Lemma A_has_read_0 a : A_has_read a = 0 → a = A_read.
Proof. by destruct a. Qed.

Lemma B_has_read_data_0 b : B_has_read_data b = 0 → b = B_readData.
Proof. by destruct b. Qed.

(** Once the sink has stored its last flit, nothing is left anywhere:
    the state is fixed by the input. *)
Lemma Inv_completed s kA kB :
  Inv W input s kA kB → completed input s →
  s = mkState (length input) [] A_read [] [] B_readData
              (prefixSumSimple_state W 0 input) [] (length input)
              (outs W input).
Proof.
  intros [] Hdone. unfold completed in Hdone.
  destruct s as [i inp a sp dp b ssf op j ob]. simpl in *. subst j.
  assert (kB = length input) as -> by lia.
  assert (kA = length input) as -> by lia.
  assert (i = length input) as -> by lia.
  assert (a = A_read) as -> by (apply A_has_read_0; lia).
  assert (b = B_readData) as -> by (apply B_has_read_data_0; lia).
  simpl in *. rewrite Nat.add_0_r in *.
  apply fifo_length in inv_In0; [|lia..].
  apply fifo_length in inv_Sum0;
    [|unfold sums; rewrite ?length_fmap; lia..].
  apply fifo_length in inv_Data0; [|lia..].
  apply fifo_length in inv_Out0; [|rewrite ?length_outs; lia..].
  rewrite Nat.sub_diag in *.
  apply nil_length_inv in inv_In0 as ->.
  apply nil_length_inv in inv_Sum0 as ->.
  apply nil_length_inv in inv_Data0 as ->.
  apply nil_length_inv in inv_Out0 as ->.
  rewrite !take_ge in inv_obuf0 by (rewrite ?length_outs; lia).
  rewrite take_ge in inv_sumSoFar0 by lia.
  by subst.
Qed.

(** With room for one entry in every pipe, some unit can step as long
    as the sink has not stored its last flit. *)
Lemma Inv_progress s kA kB :
  caps_at_least 1 caps →
  Inv W input s kA kB → ¬ completed input s →
  ∃ s', step W caps input s s'.
Proof.
  intros (HcIn & HcOut & HcData & HcSum) [] Hnot.
  unfold completed in Hnot. destruct s as [i inp a sp dp b ssf op j ob].
  simpl in *.
  assert (j < length input) as Hj by lia.
  destruct op as [|flit op'].
  2:{ eexists. exists Pipe2Output. simpl. by rewrite decide_True by done. }
  destruct b as [|f|o]; simpl in *; rewrite ?Nat.add_0_r in *.
  3:{ eexists. exists PrefixSumB. simpl. unfold pipe_write.
      by rewrite decide_True by (simpl; lia). }
  2:{ destruct sp as [|p sp'].
      - assert (A_has_written_sum a ≤ A_has_read a) as Ha
          by (destruct a; simpl; lia).
        apply fifo_length in inv_Sum0;
          [|lia|unfold sums; rewrite length_fmap; lia].
        simpl in inv_Sum0. lia.
      - eexists. exists PrefixSumB. simpl. done. }
  destruct dp as [|iflit dp'].
  2:{ eexists. exists PrefixSumB. simpl. done. }
  apply fifo_length in inv_Data0; [simpl in *|lia..].
  assert (kA = kB) as -> by lia.
  destruct a as [|f p|f]; simpl in *; rewrite ?Nat.add_0_r in *.
  3:{ eexists. exists PrefixSumA. simpl. unfold pipe_write.
      by rewrite decide_True by (simpl; lia). }
  2:{ apply fifo_length in inv_Sum0;
        [|lia|unfold sums; rewrite length_fmap; lia].
      eexists. exists PrefixSumA. simpl. unfold pipe_write.
      by rewrite decide_True by lia. }
  destruct inp as [|iflit inp'].
  2:{ eexists. exists PrefixSumA. simpl. done. }
  apply fifo_length in inv_In0; [simpl in *|lia..].
  assert (i = kB) as -> by lia.
  destruct (decide (kB < length input)) as [Hlt|Hge].
  - destruct (lookup_lt_is_Some_2 input kB Hlt) as [flit Hflit].
    eexists. exists Input2Pipe. simpl.
    rewrite decide_True by done. rewrite Hflit. simpl.
    unfold pipe_write. by rewrite decide_True by (simpl; lia).
  - apply fifo_length in inv_Out0; [simpl in *|rewrite ?length_outs; lia..].
    lia.
Qed.

Lemma run_schedule_rtc sched s :
  rtc (step W caps input) s (run_schedule W caps input sched s).
Proof.
  revert s. induction sched as [|u sched IH]; intros s; [done|].
  simpl. destruct (step_unit W caps input u s) as [s1|] eqn:Hu; simpl.
  - eapply rtc_l; [by exists u | apply IH].
  - apply IH.
Qed.

(** From any state the system can get to, it can get to completion. *)
Lemma Invariant_completes s :
  caps_at_least 1 caps → Invariant W input s →
  ∃ s', rtc (step W caps input) s s' ∧ completed input s'.
Proof.
  intros Hcaps. remember (work_left input s) as m eqn:Hm.
  revert s Hm. induction m as [m IH] using lt_wf_ind. intros s -> HI.
  destruct (decide (snk_i s = length input)) as [Hdone|Hnot].
  - exists s. split; [done | exact Hdone].
  - destruct HI as (kA & kB & HI).
    destruct (Inv_progress _ _ _ Hcaps HI Hnot) as [s1 Hstep].
    destruct (IH (work_left input s1)) with (s := s1) as (s' & Hrun & Hs').
    + rewrite (work_left_step _ _ Hstep). lia.
    + done.
    + eapply Invariant_step; [by exists kA, kB | done].
    + exists s'. split; [by eapply rtc_l | done].
Qed.

End TwoStage_progress.

(* ================================================================== *)
(** * The single-stage pipeline *)
(* ================================================================== *)

Section OneStage_facts.

Import OneStage.

Variable W : nat.
Variable caps : Caps.
Variable input : list Flit.

Lemma One_Inv_init : Inv W input (init W input) 0.
Proof. close_Inv. apply length_odataBuf_init. Qed.

Lemma One_Inv_step s s' kS :
  Inv W input s kS → step W caps input s s' → ∃ kS', Inv W input s' kS'.
Proof.
  intros HI [u Hu].
  assert (Element_ok (prefixSum s)) as Hok.
  { destruct HI. rewrite inv_prefixSum0.
    apply prefixSumSimple_state_ok, Element_ok_0. }
  destruct HI. destruct s as [i inp k ps op j ob].
  destruct u; simpl in *.
  - case_decide; [|done].
    destruct (input !! i) as [flit|] eqn:Hflit; [|done]. simpl in Hu.
    destruct (pipe_write _ _ _) as [inp'|] eqn:Hw; [|done].
    apply pipe_write_Some in Hw as [_ ->]. injection Hu as <-.
    exists kS. close_Inv. by apply fifo_push.
  - destruct k as [|o]; simpl in *; norm_counts.
    + destruct (pipe_read inp) as [[iflit inp']|] eqn:Hr; [|done].
      apply pipe_read_Some in Hr as ->. simpl in Hu.
      apply fifo_pop in inv_In0 as [Hf Hin].
      destruct (prefixSumSimple_tick W ps iflit) as [ps' oflit] eqn:Htick.
      injection Hu as <-.
      exists kS. close_Inv.
      * apply (f_equal length) in Hin.
        rewrite length_app, !length_take in Hin.
        apply lookup_lt_Some in Hf. lia.
      * unfold outs. rewrite (prefixSumSimple_run_lookup _ _ _ _ _ Hf).
        by rewrite <- inv_prefixSum0, Htick.
      * rewrite (prefixSumSimple_state_take_S _ _ _ _ _ Hf).
        by rewrite <- inv_prefixSum0, Htick.
    + destruct (pipe_write _ _ _) as [op'|] eqn:Hw; [|done].
      apply pipe_write_Some in Hw as [_ ->]. injection Hu as <-.
      exists (S kS). close_Inv. by apply fifo_push.
  - case_decide; [|done].
    destruct (pipe_read op) as [[flit op']|] eqn:Hr; [|done].
    apply pipe_read_Some in Hr as ->. simpl in Hu. injection Hu as <-.
    apply fifo_pop in inv_Out0 as [Hf Hout].
    exists kS. close_Inv.
    + apply (f_equal length) in Hout. unfold outs in Hout.
      rewrite length_app, !length_take, length_prefixSumSimple_run in Hout.
      apply lookup_lt_Some in Hf. lia.
    + rewrite (take_S_r _ _ _ Hf), <- inv_obuf0.
      rewrite (take_S_r _ _ flit).
      * by rewrite take_insert_ge.
      * apply list_lookup_insert_eq. lia.
    + by rewrite length_insert.
Qed.

Lemma One_Invariant_reachable s :
  rtc (step W caps input) (init W input) s → Invariant W input s.
Proof.
  revert s. apply rtc_ind_r.
  - exists 0. apply One_Inv_init.
  - intros s s' _ Hstep [kS HI]. by eapply One_Inv_step.
Qed.

Lemma One_work_left_step s s' :
  step W caps input s s' → work_left input s = S (work_left input s').
Proof.
  intros [u Hu]. destruct s as [i inp k ps op j ob].
  unfold work_left. destruct u; simpl in *.
  - case_decide; [|done].
    destruct (input !! i) as [flit|]; [|done]. simpl in Hu.
    destruct (pipe_write _ _ _) as [inp'|] eqn:Hw; [|done].
    apply pipe_write_Some in Hw as [_ ->]. injection Hu as <-. simpl.
    rewrite length_app. simpl. lia.
  - destruct k as [|o]; simpl in *.
    + destruct (pipe_read inp) as [[iflit inp']|] eqn:Hr; [|done].
      apply pipe_read_Some in Hr as ->. simpl in Hu.
      destruct (prefixSumSimple_tick W ps iflit).
      injection Hu as <-. simpl. lia.
    + destruct (pipe_write _ _ _) as [op'|] eqn:Hw; [|done].
      apply pipe_write_Some in Hw as [_ ->]. injection Hu as <-. simpl.
      rewrite length_app. simpl. lia.
  - case_decide; [|done].
    destruct (pipe_read op) as [[flit op']|] eqn:Hr; [|done].
    apply pipe_read_Some in Hr as ->. injection Hu as <-. simpl. lia.
Qed.

Lemma One_work_left_nsteps k s s' :
  nsteps (step W caps input) k s s' →
  work_left input s = k + work_left input s'.
Proof.
  induction 1 as [|k s s1 s' Hstep _ IH]; [done|].
  rewrite (One_work_left_step _ _ Hstep), IH. lia.
Qed.

Lemma One_Inv_completed s kS :
  Inv W input s kS → completed input s →
  s = mkState (length input) [] S_read (prefixSumSimple_state W 0 input)
              [] (length input) (outs W input).
Proof.
  intros [] Hdone. unfold completed in Hdone.
  destruct s as [i inp k ps op j ob]. simpl in *. subst j.
  assert (kS = length input) as -> by lia.
  assert (i = length input) as -> by lia.
  assert (k = S_read) as -> by (destruct k; simpl in *; [done | lia]).
  simpl in *. rewrite Nat.add_0_r in *.
  assert (length (outs W input) = length input) as Hlen
    by apply length_prefixSumSimple_run.
  apply fifo_length in inv_In0; [|lia..].
  apply fifo_length in inv_Out0; [|lia..].
  rewrite Nat.sub_diag in *.
  apply nil_length_inv in inv_In0 as ->.
  apply nil_length_inv in inv_Out0 as ->.
  rewrite !take_ge in inv_obuf0 by lia.
  rewrite take_ge in inv_prefixSum0 by lia.
  by subst.
Qed.

Lemma One_Inv_progress s kS :
  caps_at_least 1 caps →
  Inv W input s kS → ¬ completed input s →
  ∃ s', step W caps input s s'.
Proof.
  intros (HcIn & HcOut & _) [] Hnot.
  unfold completed in Hnot. destruct s as [i inp k ps op j ob].
  simpl in *.
  assert (length (outs W input) = length input) as Hlen
    by apply length_prefixSumSimple_run.
  destruct op as [|flit op'].
  2:{ eexists. exists Pipe2Output. simpl. by rewrite decide_True by lia. }
  destruct k as [|o]; simpl in *; rewrite ?Nat.add_0_r in *.
  2:{ eexists. exists PrefixSum. simpl. unfold pipe_write.
      by rewrite decide_True by (simpl; lia). }
  destruct inp as [|iflit inp'].
  2:{ exists (mkState i inp'
                (S_write (prefixSumSimple_tick W ps iflit).2)
                (prefixSumSimple_tick W ps iflit).1 [] j ob).
      exists PrefixSum. simpl.
      by destruct (prefixSumSimple_tick W ps iflit). }
  apply fifo_length in inv_In0; [simpl in *|lia..].
  assert (i = kS) as -> by lia.
  destruct (decide (kS < length input)) as [Hlt|Hge].
  - destruct (lookup_lt_is_Some_2 input kS Hlt) as [flit Hflit].
    eexists. exists Input2Pipe. simpl.
    rewrite decide_True by done. rewrite Hflit. simpl.
    unfold pipe_write. by rewrite decide_True by (simpl; lia).
  - apply fifo_length in inv_Out0; [simpl in *|lia..]. lia.
Qed.

Lemma One_run_schedule_rtc sched s :
  rtc (step W caps input) s (run_schedule W caps input sched s).
Proof.
  revert s. induction sched as [|u sched IH]; intros s; [done|].
  simpl. destruct (step_unit W caps input u s) as [s1|] eqn:Hu; simpl.
  - eapply rtc_l; [by exists u | apply IH].
  - apply IH.
Qed.

Lemma One_Invariant_completes s :
  caps_at_least 1 caps → Invariant W input s →
  ∃ s', rtc (step W caps input) s s' ∧ completed input s'.
Proof.
  intros Hcaps. remember (work_left input s) as m eqn:Hm.
  revert s Hm. induction m as [m IH] using lt_wf_ind. intros s -> HI.
  destruct (decide (snk_i s = length input)) as [Hdone|Hnot].
  - exists s. split; [done | exact Hdone].
  - destruct HI as (kS & HI).
    destruct (One_Inv_progress _ _ Hcaps HI Hnot) as [s1 Hstep].
    destruct (IH (work_left input s1)) with (s := s1) as (s' & Hrun & Hs').
    + rewrite (One_work_left_step _ _ Hstep). lia.
    + done.
    + eapply One_Inv_step; [done | done].
    + exists s'. split; [by eapply rtc_l | done].
Qed.

End OneStage_facts.

(* ================================================================== *)
(** * Running sums *)
(* ================================================================== *)

Lemma wrap_add_l a b : wrap (wrap a + b) = wrap (a + b).
Proof. apply Element_add_wrap_l. Qed.

Lemma Zsum_cons x l : Zsum (x :: l) = (x + Zsum l)%Z.
Proof. reflexivity. Qed.

Lemma foldl_Element_add p l :
  Element_ok p → foldl Element_add p l = wrap (p + Zsum l).
Proof.
  revert p. induction l as [|x l IH]; intros p Hp.
  - simpl. rewrite Z.add_0_r. symmetry. by apply wrap_id.
  - cbn [foldl]. rewrite IH by apply Element_add_ok.
    unfold Element_add. rewrite wrap_add_l, Zsum_cons. f_equal. lia.
Qed.

Lemma length_running p l : length (running p l) = length l.
Proof.
  revert p. induction l as [|x l IH]; intros p; [done|].
  cbn [running length]. by rewrite IH.
Qed.

Lemma running_app p l k :
  running p (l ++ k) = running p l ++ running (foldl Element_add p l) k.
Proof.
  revert p. induction l as [|x l IH]; intros p; [done|].
  cbn [app running foldl]. by rewrite IH.
Qed.

(** Entry [i] of the running sums is the sum of entries [0..i], modulo
    [2^64]. *)
Lemma running_lookup p l i :
  Element_ok p → i < length l →
  running p l !! i = Some (wrap (p + Zsum (take (S i) l))).
Proof.
  revert p i. induction l as [|x l IH]; intros p i Hp Hi; [simpl in Hi; lia|].
  destruct i as [|i].
  - change (Some (Element_add p x) = Some (wrap (p + Zsum [x]))).
    unfold Element_add. rewrite Zsum_cons. do 2 f_equal. cbn. lia.
  - cbn [running take]. rewrite lookup_cons.
    rewrite IH by (apply Element_add_ok || (simpl in Hi; lia)).
    unfold Element_add. rewrite wrap_add_l, Zsum_cons. do 2 f_equal. lia.
Qed.

Lemma running_prefix_sums l : running 0 l = prefix_sums l.
Proof.
  apply list_eq. intros i. unfold prefix_sums.
  rewrite list_lookup_fmap.
  destruct (decide (i < length l)) as [Hi|Hi].
  - rewrite running_lookup by (done || apply Element_ok_0).
    rewrite lookup_seq_lt by done. by rewrite Z.add_0_l.
  - rewrite lookup_seq_ge by lia.
    rewrite lookup_ge_None_2 by (rewrite length_running; lia). done.
Qed.

(** The lanes one iteration writes are the running sums of the lanes it
    reads, from the state it starts in. *)
Lemma scanned_running p f W :
  Element_ok p → scanned p f W = running p (lanes W f).
Proof.
  intros Hp. induction W as [|W IH]; [done|].
  rewrite scanned_S, lanes_S, running_app, <- IH.
  rewrite foldl_Element_add by done. cbn [running].
  unfold Element_add. rewrite wrap_add_l, Zsum_snoc.
  by rewrite Z.add_assoc.
Qed.

Section Unpack.

Variable W : nat.

Lemma unpack_cons f l : unpack (f :: l) = element f ++ unpack l.
Proof. reflexivity. Qed.

Lemma length_unpack (l : list Flit) :
  Forall (Flit_ok W) l → length (unpack l) = W * length l.
Proof.
  induction 1 as [|f l Hf _ IH]; [simpl; lia|].
  rewrite unpack_cons, length_app, IH. unfold Flit_ok in Hf.
  cbn [length]. lia.
Qed.

(** The element stream [prefixSumSimple] writes is the running sum of
    the element stream it reads. *)
Lemma unpack_prefixSumSimple_run p l :
  Element_ok p → Forall (Flit_ok W) l →
  unpack (prefixSumSimple_run W p l) = running p (unpack l).
Proof.
  intros Hp Hl. revert p Hp.
  induction Hl as [|f l Hf _ IH]; intros p Hp; [done|].
  cbn [prefixSumSimple_run].
  rewrite prefixSumSimple_tick_spec by done.
  rewrite !unpack_cons, running_app. cbn [element].
  rewrite IH by apply wrap_ok.
  rewrite scanned_running, foldl_Element_add by done.
  by rewrite (lanes_ok _ _ Hf).
Qed.

Lemma prefixSumSimple_run_ok p l :
  Element_ok p → Forall (Flit_ok W) (prefixSumSimple_run W p l).
Proof.
  revert p. induction l as [|f l IH]; intros p Hp; [constructor|].
  cbn [prefixSumSimple_run]. rewrite prefixSumSimple_tick_spec by done.
  constructor; [|apply IH, wrap_ok].
  unfold Flit_ok. cbn [element]. apply length_scanned.
Qed.

Lemma prefixSumSimple_state_total p l :
  Element_ok p → Forall (Flit_ok W) l →
  prefixSumSimple_state W p l = wrap (p + Zsum (unpack l)).
Proof.
  intros Hp Hl. revert p Hp.
  induction Hl as [|f l Hf _ IH]; intros p Hp.
  - cbn. rewrite Z.add_0_r. symmetry. by apply wrap_id.
  - rewrite prefixSumSimple_state_cons, prefixSumSimple_tick_spec by done.
    cbn [fst]. rewrite IH by apply wrap_ok.
    rewrite wrap_add_l, unpack_cons, Zsum_app, (lanes_ok _ _ Hf).
    f_equal. lia.
Qed.

End Unpack.

(* ================================================================== *)
(** * The checking loop of [main] *)
(* ================================================================== *)

Section Check_facts.

Variable W : nat.

Lemma check_lanes_spec iflit oflit js p :
  check_lanes iflit oflit js p
  = if decide (running p (lane iflit <$> js) = lane oflit <$> js)
    then Some (foldl Element_add p (lane iflit <$> js))
    else None.
Proof.
  revert p. induction js as [|j js IH]; intros p.
  - cbn. by rewrite decide_True.
  - cbn [check_lanes fmap list_fmap running foldl].
    destruct (decide (Element_add p (lane iflit j) ≠ lane oflit j))
      as [Hne|Heq].
    + rewrite decide_False; [done|]. intros [= ? _]. done.
    + apply dec_stable in Heq. rewrite IH.
      destruct (decide (running _ _ = _)) as [Hr|Hr].
      * rewrite decide_True; [done|]. by rewrite Hr, Heq.
      * rewrite decide_False; [done|]. intros [= _ ?]. done.
Qed.

Lemma check_flits_spec idata odata ks p :
  check_flits W idata odata ks p
  = if decide (running p (lanes_of W idata ks) = lanes_of W odata ks)
    then Some (foldl Element_add p (lanes_of W idata ks))
    else None.
Proof.
  revert p. induction ks as [|k ks IH]; intros p.
  - cbn. by rewrite decide_True.
  - cbn [check_flits]. rewrite check_lanes_spec.
    change (lane ?f <$> seq 0 W) with (lanes W f).
    unfold lanes_of. cbn [fmap list_fmap concat compose].
    fold (lanes_of W idata ks). fold (lanes_of W odata ks).
    rewrite running_app, foldl_app.
    destruct (decide (running p (lanes W (flit_at idata k)) = _))
      as [Hl|Hl]; cbn [mbind option_bind].
    + rewrite IH. 
      destruct (decide (running _ (lanes_of W idata ks) = _)) as [Hr|Hr].
      * rewrite decide_True; [done|]. by rewrite Hl, Hr.
      * rewrite decide_False; [done|]. intros Heq. apply Hr.
        apply app_inj_1 in Heq as [_ ?]; [done|].
        by rewrite length_running, !length_lanes.
    + rewrite decide_False; [done|]. intros Heq. apply Hl.
      apply app_inj_1 in Heq as [? _]; [done|].
      by rewrite length_running, !length_lanes.
Qed.

Lemma lanes_of_all buf :
  Forall (Flit_ok W) buf → lanes_of W buf (seq 0 (length buf)) = unpack buf.
Proof.
  intros Hbuf. unfold lanes_of, unpack. f_equal.
  apply list_eq. intros k. rewrite !list_lookup_fmap.
  destruct (buf !! k) as [f|] eqn:Hk.
  - rewrite lookup_seq_lt by (by eapply lookup_lt_Some). cbn.
    unfold flit_at. rewrite Hk. cbn. f_equal. apply lanes_ok.
    by eapply Forall_lookup_1.
  - rewrite lookup_seq_ge; [done|]. by apply lookup_ge_None.
Qed.

(** The lanes the loop visits in [n] trips are the elements of the first
    [n] flits. *)
Lemma lanes_of_first buf n :
  n ≤ length buf → Forall (Flit_ok W) (take n buf) →
  lanes_of W buf (seq 0 n) = unpack (take n buf).
Proof.
  intros Hn Hok. rewrite <- (lanes_of_all (take n buf)) by done.
  rewrite length_take_le by done. unfold lanes_of. f_equal.
  apply list_fmap_ext. intros i k Hk. apply lookup_seq in Hk as [-> Hk].
  cbn. unfold flit_at. by rewrite lookup_take_lt.
Qed.

(** The block returns 1 exactly when the first [n] flits of the output
    buffer are not the prefix sum of the first [n] flits of the input
    buffer. *)
Lemma main_check_spec n idata odata :
  n ≤ length idata → n ≤ length odata →
  Forall (Flit_ok W) (take n idata) → Forall (Flit_ok W) (take n odata) →
  main_check W n idata odata
  = if decide (prefix_sums (unpack (take n idata)) = unpack (take n odata))
    then ([], 0%Z) else (["Sum incorrect."%string], 1%Z).
Proof.
  intros Hni Hno Hi Ho. unfold main_check. rewrite check_flits_spec.
  rewrite !lanes_of_first by done. rewrite running_prefix_sums.
  by destruct (decide _).
Qed.

Lemma first_mismatch_from_None i expected actual :
  length expected = length actual →
  first_mismatch_from i expected actual = None ↔ expected = actual.
Proof.
  revert i actual. induction expected as [|e es IH]; intros i [|a acts] Hlen;
    try done.
  cbn [first_mismatch_from]. case_decide as He.
  - subst a. rewrite IH by (simpl in Hlen; lia). split; congruence.
  - split; [done|]. intros [= ? _]. done.
Qed.

Lemma length_prefix_sums l : length (prefix_sums l) = length l.
Proof. unfold prefix_sums. by rewrite length_fmap, length_seq. Qed.

End Check_facts.

(* ================================================================== *)
(** * The two-stage pipeline under a scheduler *)
(* ================================================================== *)

Section TwoStage_schedules.

Import TwoStage.

Variable W : nat.
Variable caps : Caps.
Variable input : list Flit.

Lemma run_schedule_app sched sched' s :
  run_schedule W caps input (sched ++ sched') s
  = run_schedule W caps input sched' (run_schedule W caps input sched s).
Proof.
  revert s. induction sched as [|u sched IH]; intros s; [done|]. apply IH.
Qed.

Lemma run_schedule_Invariant sched s :
  Invariant W input s →
  Invariant W input (run_schedule W caps input sched s).
Proof.
  revert s. induction sched as [|u sched IH]; intros s HI; [done|].
  simpl. apply IH.
  destruct (step_unit W caps input u s) as [s1|] eqn:Hu; simpl; [|done].
  eapply Invariant_step; [done | by exists u].
Qed.

Lemma Invariant_init : Invariant W input (init W input).
Proof. exists 0, 0. apply Inv_init. Qed.

(** Every state the system can get to is the state some schedule leads
    to. *)
Lemma rtc_run_schedule s s' :
  rtc (step W caps input) s s' →
  ∃ sched, s' = run_schedule W caps input sched s.
Proof.
  induction 1 as [s|s s1 s' [u Hu] _ [sched ->]].
  - by exists [].
  - exists (u :: sched). simpl. by rewrite Hu.
Qed.

Lemma steps_taken_work_left sched s :
  work_left input s
  = steps_taken W caps input sched s
    + work_left input (run_schedule W caps input sched s).
Proof.
  revert s. induction sched as [|u sched IH]; intros s; [done|].
  simpl. destruct (step_unit W caps input u s) as [s1|] eqn:Hu; simpl.
  - rewrite (work_left_step W caps input s s1) by (by exists u).
    rewrite (IH s1). lia.
  - apply IH.
Qed.

(** A turn given to a unit that can step makes the system advance, at
    that turn or before. *)
Lemma run_schedule_advances sched u s s1 :
  step_unit W caps input u s = Some s1 → u ∈ sched →
  work_left input (run_schedule W caps input sched s) < work_left input s.
Proof.
  revert s s1. induction sched as [|v sched IH]; intros s s1 Hu Hin.
  - by apply elem_of_nil in Hin.
  - simpl. destruct (step_unit W caps input v s) as [s2|] eqn:Hv; simpl.
    + pose proof (steps_taken_work_left sched s2) as H2.
      rewrite (work_left_step W caps input s s2) by (by exists v). lia.
    + apply elem_of_cons in Hin as [->|Hin]; [congruence|].
      by eapply IH.
Qed.

(** The state in which the sink has stored its last flit is final: no
    unit can step. *)
Lemma completed_stuck s u :
  Invariant W input s → completed input s →
  step_unit W caps input u s = None.
Proof.
  intros (kA & kB & HI) Hdone.
  rewrite (Inv_completed _ _ _ _ _ HI Hdone).
  destruct u; simpl; try done; by rewrite decide_False by lia.
Qed.

Lemma completed_run sched s :
  Invariant W input s → completed input s →
  run_schedule W caps input sched s = s.
Proof.
  intros HI Hdone. induction sched as [|u sched IH]; [done|].
  simpl. by rewrite (completed_stuck s u HI Hdone).
Qed.

Lemma work_left_0_completed s :
  caps_at_least 1 caps → Invariant W input s →
  work_left input s = 0 → completed input s.
Proof.
  intros Hcaps (kA & kB & HI) H0.
  destruct (decide (snk_i s = length input)) as [|Hnot]; [done|].
  destruct (Inv_progress _ _ _ _ _ _ Hcaps HI Hnot) as [s' Hstep].
  rewrite (work_left_step _ _ _ _ _ Hstep) in H0. lia.
Qed.

(** Fair rounds, as many as there are steps left, take the system to
    completion. *)
Lemma fair_rounds_complete rounds s :
  caps_at_least 1 caps → Invariant W input s →
  Forall fair_round rounds → work_left input s ≤ length rounds →
  completed input (run_schedule W caps input (concat rounds) s).
Proof.
  intros Hcaps HI Hfair. revert s HI.
  induction Hfair as [|r rounds Hr _ IH]; intros s HI Hlen.
  - simpl in *. apply work_left_0_completed; [done..|lia].
  - cbn [concat]. rewrite run_schedule_app.
    destruct (decide (snk_i s = length input)) as [Hdone|Hnot].
    + by rewrite (completed_run r s HI Hdone),
         (completed_run (concat rounds) s HI Hdone).
    + apply IH; [by apply run_schedule_Invariant|].
      destruct HI as (kA & kB & HI).
      destruct (Inv_progress _ _ _ _ _ _ Hcaps HI Hnot) as [s' [u Hu]].
      pose proof (run_schedule_advances r u s s' Hu (Hr u)).
      simpl in Hlen. lia.
Qed.

(** What a completed run leaves in [odataBuf]. *)
Lemma completed_odataBuf sched :
  completed input (run_schedule W caps input sched (init W input)) →
  odataBuf (run_schedule W caps input sched (init W input))
  = prefixSumAB_run W input.
Proof.
  intros Hdone.
  destruct (run_schedule_Invariant sched (init W input) Invariant_init)
    as (kA & kB & HI).
  rewrite (Inv_completed _ _ _ _ _ HI Hdone). simpl.
  symmetry. apply prefixSumAB_run_simple.
Qed.

End TwoStage_schedules.

Section OneStage_schedules.

Import OneStage.

Variable W : nat.
Variable caps : Caps.
Variable input : list Flit.

Lemma One_run_schedule_Invariant sched s :
  Invariant W input s →
  Invariant W input (run_schedule W caps input sched s).
Proof.
  revert s. induction sched as [|u sched IH]; intros s HI; [done|].
  simpl. apply IH.
  destruct (step_unit W caps input u s) as [s1|] eqn:Hu; simpl; [|done].
  destruct HI as [kS HI]. eapply One_Inv_step; [done | by exists u].
Qed.

Lemma One_completed_odataBuf sched :
  completed input (run_schedule W caps input sched (init W input)) →
  odataBuf (run_schedule W caps input sched (init W input))
  = prefixSumSimple_run W 0 input.
Proof.
  intros Hdone.
  destruct (One_run_schedule_Invariant sched (init W input)) as (kS & HI).
  { exists 0. apply One_Inv_init. }
  by rewrite (One_Inv_completed _ _ _ _ HI Hdone).
Qed.

End OneStage_schedules.

(* ================================================================== *)
(** * The properties of the specification *)
(* ================================================================== *)

(** C1. For every finite input sequence of flits, the two-stage pipeline
    ([prefixSumA] feeding [prefixSumB] through the sum and data pipes)
    produces the output flit sequence of the single-stage kernel
    [prefixSumSimple]: as stream functions, and as what any completed run
    of either system, under any schedule and any pipe capacities, leaves
    in [odataBuf]. *)
Theorem two_stage_equals_single_stage W input :
  prefixSumAB_run W input = prefixSumSimple_run W 0 input
  ∧ ∀ caps caps' sched sched',
      let s2 := TwoStage.run_schedule W caps input sched
                  (TwoStage.init W input) in
      let s1 := OneStage.run_schedule W caps' input sched'
                  (OneStage.init W input) in
      TwoStage.completed input s2 → OneStage.completed input s1 →
      TwoStage.odataBuf s2 = OneStage.odataBuf s1.
Proof.
  split; [apply prefixSumAB_run_simple|].
  intros caps caps' sched sched' s2 s1 H2 H1. subst s1 s2.
  rewrite completed_odataBuf, One_completed_odataBuf by done.
  apply prefixSumAB_run_simple.
Qed.

Lemma two_stage_equals_single_stage_witness :
  let s2 := TwoStage.run_schedule 4 (caps_exactly DEFAULT_PIPE_DEPTH)
              scenario1 (rounds2 16) (TwoStage.init 4 scenario1) in
  let s1 := OneStage.run_schedule 4 (caps_exactly 1)
              scenario1 (rounds1 8) (OneStage.init 4 scenario1) in
  TwoStage.completed scenario1 s2 ∧ OneStage.completed scenario1 s1
  ∧ TwoStage.odataBuf s2 = OneStage.odataBuf s1.
Proof.
  intros s2 s1.
  assert (TwoStage.completed scenario1 s2) as H2 by (vm_compute; reflexivity).
  assert (OneStage.completed scenario1 s1) as H1 by (vm_compute; reflexivity).
  split; [exact H2|]. split; [exact H1|].
  exact (proj2 (two_stage_equals_single_stage 4 scenario1)
               (caps_exactly DEFAULT_PIPE_DEPTH) (caps_exactly 1)
               (rounds2 16) (rounds1 8) H2 H1).
Defined.

Section TwoStage_pairing.

Import TwoStage.

Variable W : nat.
Variable caps : Caps.
Variable input : list Flit.

(** When [prefixSumB] holds a flit and a sum is waiting on the sum
    pipe, the two stem from the same input flit. *)
Lemma Inv_pairing s kA kB iflit partialSum rest :
  Inv W input s kA kB →
  pcB s = B_readSum iflit → SumPipe s = partialSum :: rest →
  input !! kB = Some iflit ∧ sums W input !! kB = Some partialSum.
Proof.
  intros [] Hb Hsp. rewrite Hb, Hsp in *. simpl in *.
  rewrite Nat.add_0_r in *.
  apply fifo_pop in inv_Sum0 as [Hp _]. done.
Qed.

(** What [prefixSumB] has added up is the state of [prefixSumSimple]
    after as many iterations. *)
Lemma Invariant_sumSoFar s :
  Invariant W input s →
  ∃ k, k ≤ length input
       ∧ sumSoFar s = prefixSumSimple_state W 0 (take k input).
Proof.
  intros (kA & kB & []). eexists. split; [|done].
  destruct (pcA s), (pcB s); simpl in *; lia.
Qed.

End TwoStage_pairing.

(** The flit one iteration of [prefixSumB] makes, lane by lane. *)
Lemma prefixSumB_tick_lanes W sumSoFar iflit partialSum :
  Element_ok sumSoFar →
  let oflit := (prefixSumB_tick W sumSoFar iflit partialSum).2 in
  length (element oflit) = W
  ∧ (∀ i, i < W →
       element oflit !! i
       = Some (wrap (sumSoFar + Zsum (lanes (S i) iflit))))
  ∧ (Flit_ok W iflit → element oflit = running sumSoFar (element iflit)).
Proof.
  intros Hok oflit. subst oflit.
  rewrite prefixSumB_tick_spec by done. cbn [snd element].
  split; [apply length_scanned|]. split.
  - intros i Hi. unfold scanned.
    by rewrite list_lookup_fmap, lookup_seq_lt.
  - intros Hf. by rewrite scanned_running, (lanes_ok _ _ Hf).
Qed.

(** C3. [prefixSumB] starts with [sumSoFar = 0].  In each iteration it
    reads one flit from the data pipe and one partial sum from the sum
    pipe, which belong to the same input flit [k] (and [sumSoFar] is then
    what the first [k] pairs have added up); it computes the output flit
    by the loop of the single-stage kernel seeded with [sumSoFar], so that
    lane [i] of the output flit is [sumSoFar] plus lanes [0..i] of the
    input flit, modulo [2^64]; it adds the partial sum to [sumSoFar], and
    writes the output flit. *)
Theorem prefixSumB_iteration W caps input sched :
  let s := TwoStage.run_schedule W caps input sched (TwoStage.init W input) in
  TwoStage.sumSoFar (TwoStage.init W input) = 0%Z
  ∧ Element_ok (TwoStage.sumSoFar s)
  ∧ (∀ sumSoFar iflit partialSum,
       prefixSumB_tick W sumSoFar iflit partialSum
       = (Element_add sumSoFar partialSum,
          (prefixSumSimple_tick W sumSoFar iflit).2))
  ∧ (∀ sumSoFar iflit partialSum,
       Element_ok sumSoFar →
       let oflit := (prefixSumB_tick W sumSoFar iflit partialSum).2 in
       length (element oflit) = W
       ∧ (∀ i, i < W →
            element oflit !! i
            = Some (wrap (sumSoFar + Zsum (lanes (S i) iflit))))
       ∧ (Flit_ok W iflit →
          element oflit = running sumSoFar (element iflit)))
  ∧ (∀ iflit rest,
       TwoStage.pcB s = TwoStage.B_readData →
       TwoStage.DataPipe s = iflit :: rest →
       ∃ s', TwoStage.step_unit W caps input TwoStage.PrefixSumB s = Some s'
             ∧ TwoStage.pcB s' = TwoStage.B_readSum iflit
             ∧ TwoStage.DataPipe s' = rest
             ∧ TwoStage.sumSoFar s' = TwoStage.sumSoFar s)
  ∧ (∀ iflit partialSum rest,
       TwoStage.pcB s = TwoStage.B_readSum iflit →
       TwoStage.SumPipe s = partialSum :: rest →
       (∃ k, input !! k = Some iflit
             ∧ (prefixSumA_run W input).2 !! k = Some iflit
             ∧ (prefixSumA_run W input).1 !! k = Some partialSum
             ∧ TwoStage.sumSoFar s
               = prefixSumB_state W 0 (take k (prefixSumA_run W input).2)
                                  (take k (prefixSumA_run W input).1))
       ∧ ∃ s' oflit,
           TwoStage.step_unit W caps input TwoStage.PrefixSumB s = Some s'
           ∧ TwoStage.pcB s' = TwoStage.B_write oflit
           ∧ oflit = (prefixSumSimple_tick W (TwoStage.sumSoFar s) iflit).2
           ∧ length (element oflit) = W
           ∧ (∀ i, i < W →
                element oflit !! i
                = Some (wrap (TwoStage.sumSoFar s
                              + Zsum (lanes (S i) iflit))))
           ∧ TwoStage.sumSoFar s'
             = Element_add (TwoStage.sumSoFar s) partialSum
           ∧ TwoStage.SumPipe s' = rest)
  ∧ (∀ oflit,
       TwoStage.pcB s = TwoStage.B_write oflit →
       length (TwoStage.OutPipe s) < cap_Out caps →
       ∃ s', TwoStage.step_unit W caps input TwoStage.PrefixSumB s = Some s'
             ∧ TwoStage.pcB s' = TwoStage.B_readData
             ∧ TwoStage.OutPipe s' = TwoStage.OutPipe s ++ [oflit]
             ∧ TwoStage.sumSoFar s' = TwoStage.sumSoFar s).
Proof.
  intros s.
  pose proof (run_schedule_Invariant W caps input sched _
                (Invariant_init W input)) as (kA & kB & HI).
  fold s in HI.
  pose proof (Inv_sumSoFar_ok _ _ _ _ _ HI) as Hok.
  split; [done|]. split; [done|]. split; [done|].
  split; [apply prefixSumB_tick_lanes|]. split; [|split].
  - intros iflit rest Hb Hdp. destruct s; simpl in *. subst.
    eexists. split; [reflexivity|]. done.
  - intros iflit partialSum rest Hb Hsp.
    destruct (Inv_pairing _ _ _ _ _ _ _ _ HI Hb Hsp) as [Hf Hp].
    split.
    + exists kB. split; [done|].
      unfold prefixSumA_run. cbn [fst snd]. rewrite prefixSumA_forwards.
      split; [done|]. split; [done|].
      rewrite <- fmap_take.
      rewrite prefixSumB_after_A_state by apply Element_ok_0.
      rewrite (TwoStage.inv_sumSoFar _ _ _ _ _ HI), Hb. simpl.
      by rewrite Nat.add_0_r.
    + pose proof (prefixSumB_tick_lanes W (TwoStage.sumSoFar s) iflit
                    partialSum Hok) as (Hlen & Hlanes & _).
      destruct s; simpl in *. subst.
      eexists _, _. split; [reflexivity|]. simpl.
      split; [reflexivity|]. split; [done|]. done.
  - intros oflit Hb Hroom. destruct s; simpl in *. subst.
    unfold pipe_write. rewrite decide_True by done.
    eexists. split; [reflexivity|]. done.
Qed.

Lemma prefixSumB_iteration_witness :
  let sched := [TwoStage.Input2Pipe; TwoStage.PrefixSumA; TwoStage.PrefixSumA;
                TwoStage.PrefixSumA; TwoStage.PrefixSumB; TwoStage.PrefixSumB;
                TwoStage.PrefixSumB; TwoStage.Input2Pipe; TwoStage.PrefixSumA;
                TwoStage.PrefixSumA; TwoStage.PrefixSumA; TwoStage.PrefixSumB] in
  let caps := caps_exactly DEFAULT_PIPE_DEPTH in
  let s := TwoStage.run_schedule 4 caps scenario1 sched
             (TwoStage.init 4 scenario1) in
  let iflit := mkFlit [5; 6; 7; 8]%Z in
  TwoStage.pcB s = TwoStage.B_readSum iflit
  ∧ TwoStage.SumPipe s = [26%Z]
  ∧ TwoStage.sumSoFar s = 10%Z
  ∧ prefixSumB_tick 4 10 iflit 26 = (36%Z, mkFlit [15; 21; 28; 36]%Z)
  ∧ ∃ s' oflit,
      TwoStage.step_unit 4 caps scenario1 TwoStage.PrefixSumB s = Some s'
      ∧ TwoStage.pcB s' = TwoStage.B_write oflit
      ∧ oflit = (prefixSumSimple_tick 4 (TwoStage.sumSoFar s) iflit).2
      ∧ length (element oflit) = 4
      ∧ (∀ i, i < 4 →
           element oflit !! i
           = Some (wrap (TwoStage.sumSoFar s + Zsum (lanes (S i) iflit))))
      ∧ TwoStage.sumSoFar s' = Element_add (TwoStage.sumSoFar s) 26
      ∧ TwoStage.SumPipe s' = [].
Proof.
  intros sched caps s iflit.
  assert (TwoStage.pcB s = TwoStage.B_readSum iflit) as Hb
    by (vm_compute; reflexivity).
  assert (TwoStage.SumPipe s = [26%Z]) as Hsp by (vm_compute; reflexivity).
  split; [exact Hb|]. split; [exact Hsp|].
  split; [vm_compute; reflexivity|]. split; [vm_compute; reflexivity|].
  exact (proj2 (proj1 (proj2 (proj2 (proj2 (proj2 (proj2
           (prefixSumB_iteration 4 caps scenario1 sched))))))
           iflit 26%Z [] Hb Hsp)).
Defined.

(** C4. In each iteration [prefixSumA] reads one input flit, writes to the
    sum pipe the sum of its [W] elements modulo [2^64], and forwards the
    flit unchanged to the data pipe.  It carries nothing from one
    iteration to the next: what it writes in an iteration depends on the
    flit read in that iteration alone. *)
Theorem prefixSumA_iteration W :
  (∀ iflit,
     prefixSumA_tick W iflit = (wrap (Zsum (lanes W iflit)), iflit))
  ∧ (∀ iflit, Flit_ok W iflit →
       prefixSumA_tick W iflit = (wrap (Zsum (element iflit)), iflit))
  ∧ (∀ input,
       prefixSumA_run W input
       = ((λ f, wrap (Zsum (lanes W f))) <$> input, input))
  ∧ (∀ input input' k,
       input !! k = input' !! k →
       (prefixSumA_run W input).1 !! k = (prefixSumA_run W input').1 !! k
       ∧ (prefixSumA_run W input).2 !! k = (prefixSumA_run W input').2 !! k)
  ∧ (∀ caps input s iflit rest,
       TwoStage.pcA s = TwoStage.A_read →
       TwoStage.InPipe s = iflit :: rest →
       ∃ s', TwoStage.step_unit W caps input TwoStage.PrefixSumA s = Some s'
             ∧ TwoStage.pcA s'
               = TwoStage.A_writeSum iflit (wrap (Zsum (lanes W iflit)))
             ∧ TwoStage.InPipe s' = rest)
  ∧ (∀ caps input s iflit partialSum,
       TwoStage.pcA s = TwoStage.A_writeSum iflit partialSum →
       length (TwoStage.SumPipe s) < cap_Sum caps →
       ∃ s', TwoStage.step_unit W caps input TwoStage.PrefixSumA s = Some s'
             ∧ TwoStage.pcA s' = TwoStage.A_writeData iflit
             ∧ TwoStage.SumPipe s' = TwoStage.SumPipe s ++ [partialSum])
  ∧ (∀ caps input s iflit,
       TwoStage.pcA s = TwoStage.A_writeData iflit →
       length (TwoStage.DataPipe s) < cap_Data caps →
       ∃ s', TwoStage.step_unit W caps input TwoStage.PrefixSumA s = Some s'
             ∧ TwoStage.pcA s' = TwoStage.A_read
             ∧ TwoStage.DataPipe s' = TwoStage.DataPipe s ++ [iflit]).
Proof.
  split; [apply prefixSumA_tick_spec|].
  split. { intros f Hf. by rewrite prefixSumA_tick_spec, (lanes_ok _ _ Hf). }
  split; [apply prefixSumA_run_spec|].
  split.
  { intros input input' k Hk. rewrite !prefixSumA_run_spec. cbn [fst snd].
    by rewrite !list_lookup_fmap, Hk. }
  split.
  { intros caps input s iflit rest Ha Hin. destruct s; simpl in *. subst.
    eexists. split; [reflexivity|]. simpl. split; [|done].
    f_equal. by rewrite sum_loop_spec by apply Element_ok_0. }
  split.
  { intros caps input s iflit p Ha Hroom. destruct s; simpl in *. subst.
    unfold pipe_write. rewrite decide_True by done.
    eexists. split; [reflexivity|]. done. }
  intros caps input s iflit Ha Hroom. destruct s; simpl in *. subst.
  unfold pipe_write. rewrite decide_True by done.
  eexists. split; [reflexivity|]. done.
Qed.

Lemma prefixSumA_iteration_witness :
  let iflit := mkFlit [1; 2; 3; 4]%Z in
  Flit_ok 4 iflit
  ∧ prefixSumA_tick 4 iflit = (wrap (Zsum (element iflit)), iflit).
Proof.
  intros iflit.
  assert (Flit_ok 4 iflit) as Hok by reflexivity.
  split; [exact Hok|].
  exact (proj1 (proj2 (prefixSumA_iteration 4)) iflit Hok).
Defined.

Lemma last_scanned p f W :
  0 < W → last (scanned p f W) = Some (wrap (p + Zsum (lanes W f))).
Proof.
  destruct W as [|W]; [lia|]. intros _. by rewrite scanned_S, last_snoc.
Qed.

(** C5. After [prefixSumB] has processed its first [k] pairs of a flit and
    a partial sum, its state [sumSoFar] is the sum modulo [2^64] of all
    elements of the first [k] input flits, which is the state [prefixSum]
    of [prefixSumSimple] after the same [k] flits and the last element of
    output flit number [k]. *)
Theorem sumSoFar_invariant W input k :
  Forall (Flit_ok W) input →
  let sums := (prefixSumA_run W input).1 in
  let data := (prefixSumA_run W input).2 in
  let sumSoFar := prefixSumB_state W 0 (take k data) (take k sums) in
  sumSoFar = wrap (Zsum (unpack (take k input)))
  ∧ sumSoFar = prefixSumSimple_state W 0 (take k input)
  ∧ (0 < W → 0 < k ≤ length input →
     ∃ oflit, prefixSumB_run W 0 data sums !! (k - 1) = Some oflit
              ∧ last (element oflit) = Some sumSoFar)
  ∧ (∀ caps sched,
       ∃ k', k' ≤ length input
             ∧ TwoStage.sumSoFar
                 (TwoStage.run_schedule W caps input sched
                    (TwoStage.init W input))
               = wrap (Zsum (unpack (take k' input)))).
Proof.
  intros Hin sums data sumSoFar.
  assert (sumSoFar = prefixSumSimple_state W 0 (take k input)) as Hs.
  { subst sumSoFar sums data. unfold prefixSumA_run. cbn [fst snd].
    rewrite prefixSumA_forwards, <- fmap_take.
    apply prefixSumB_after_A_state, Element_ok_0. }
  split; [|split; [exact Hs|split]].
  - rewrite Hs, prefixSumSimple_state_total
      by (apply Element_ok_0 || by apply Forall_take).
    by rewrite Z.add_0_l.
  - intros HW [Hk Hkn]. destruct k as [|k]; [lia|].
    destruct (lookup_lt_is_Some_2 input k) as [f Hf]; [lia|].
    subst sums data. unfold prefixSumA_run. cbn [fst snd].
    rewrite prefixSumA_forwards, prefixSumB_after_A_run by apply Element_ok_0.
    replace (S k - 1) with k by lia.
    rewrite (prefixSumSimple_run_lookup _ _ _ _ _ Hf).
    eexists. split; [reflexivity|].
    rewrite Hs, (prefixSumSimple_state_take_S _ _ _ _ _ Hf).
    rewrite prefixSumSimple_tick_spec
      by apply prefixSumSimple_state_ok, Element_ok_0.
    cbn [fst snd element]. by apply last_scanned.
  - intros caps sched.
    destruct (Invariant_sumSoFar W input _
                (run_schedule_Invariant W caps input sched _
                   (Invariant_init W input))) as (k' & Hk' & ->).
    exists k'. split; [done|].
    rewrite prefixSumSimple_state_total
      by (apply Element_ok_0 || by apply Forall_take).
    by rewrite Z.add_0_l.
Qed.

Lemma sumSoFar_invariant_witness :
  let sums := (prefixSumA_run 4 scenario1).1 in
  let data := (prefixSumA_run 4 scenario1).2 in
  let sumSoFar := prefixSumB_state 4 0 (take 2 data) (take 2 sums) in
  Forall (Flit_ok 4) scenario1 ∧ 0 < 4 ∧ 0 < 2 ≤ length scenario1
  ∧ sumSoFar = wrap (Zsum (unpack (take 2 scenario1)))
  ∧ sumSoFar = prefixSumSimple_state 4 0 (take 2 scenario1)
  ∧ ∃ oflit, prefixSumB_run 4 0 data sums !! (2 - 1) = Some oflit
             ∧ last (element oflit) = Some sumSoFar.
Proof.
  intros sums data sumSoFar.
  assert (Forall (Flit_ok 4) scenario1) as Hok by (repeat constructor).
  assert (0 < 4) as HW by lia.
  assert (0 < 2 ≤ length scenario1) as Hk by (vm_compute; lia).
  split; [exact Hok|]. split; [exact HW|]. split; [exact Hk|].
  pose proof (sumSoFar_invariant 4 scenario1 2 Hok) as (H1 & H2 & H3 & _).
  split; [exact H1|]. split; [exact H2|]. exact (H3 HW Hk).
Defined.

(* ================================================================== *)
(** * Overlapped iterations: invariants *)
(* ================================================================== *)

(** The reader of a window removes the entry of the stream it is due to
    see, and stays behind the writer. *)
Lemma fifo_pop_lt {T} (l : list T) w r q x :
  take w l = take r l ++ x :: q →
  l !! r = Some x ∧ take w l = take (S r) l ++ q ∧ r < w.
Proof.
  intros H. destruct (fifo_pop _ _ _ _ _ H) as [Hx Hw].
  split; [done|]. split; [done|].
  apply lookup_lt_Some in Hx. apply (f_equal length) in H.
  rewrite length_app, !length_take in H. simpl in H. lia.
Qed.

Section TwoStageOverlapped_invariant.

Import TwoStageOverlapped.

Variable W : nat.
Variable in_flight_A in_flight_B : nat.
Variable caps : Caps.
Variable input : list Flit.

Lemma ticksA_lookup k f :
  input !! k = Some f → ticksA W input !! k = Some (prefixSumA_tick W f).
Proof. intros H. unfold ticksA. by rewrite list_lookup_fmap, H. Qed.

Lemma ticksA_lookup_inv k p f :
  ticksA W input !! k = Some (p, f) →
  input !! k = Some f ∧ TwoStage.sums W input !! k = Some p.
Proof.
  unfold ticksA, TwoStage.sums. rewrite !list_lookup_fmap. intros H.
  destruct (input !! k) as [g|]; [|done]. cbn in *.
  rewrite prefixSumA_tick_spec in *. cbn. by injection H as -> ->.
Qed.

Lemma Over_Inv_init : Inv W input (init W input) 0 0 0 0 0 0.
Proof.
  constructor; simpl; try done; try lia.
  apply length_odataBuf_init.
Qed.

Lemma Over_Invariant_step o s s' :
  Invariant W input s →
  step_op W in_flight_A in_flight_B caps input o s = Some s' →
  Invariant W input s'.
Proof.
  intros (a1 & a2 & a3 & b1 & b2 & b3 & HI) Hstep.
  assert (Element_ok (sumSoFar s)) as Hok.
  { rewrite (inv_sumSoFar _ _ _ _ _ _ _ _ _ HI).
    apply prefixSumSimple_state_ok, Element_ok_0. }
  destruct HI.
  destruct s as [i inp asum afwd sp dp bwait ssf brdy op j ob].
  simpl in *. destruct o.
  - case_decide; [|done].
    destruct (input !! i) as [flit|] eqn:Hflit; [|done]. simpl in Hstep.
    destruct (pipe_write _ _ _) as [inp'|] eqn:Hw; [|done].
    apply pipe_write_Some in Hw as [_ ->]. injection Hstep as <-.
    exists a1, a2, a3, b1, b2, b3.
    constructor; simpl; try done; try lia. by apply fifo_push.
  - case_decide; [|done].
    destruct (pipe_read inp) as [[iflit inp']|] eqn:Hr; [|done].
    apply pipe_read_Some in Hr as ->. simpl in Hstep.
    injection Hstep as <-.
    apply fifo_pop_lt in inv_In0 as (Hf & Hin & Hlt).
    exists (S a1), a2, a3, b1, b2, b3.
    constructor; simpl; try done; try lia.
    apply fifo_push; [done|]. by apply ticksA_lookup.
  - destruct asum as [|[p f] asum']; [done|].
    destruct (pipe_write _ _ _) as [sp'|] eqn:Hw; [|done].
    apply pipe_write_Some in Hw as [_ ->]. injection Hstep as <-.
    apply fifo_pop_lt in inv_A_summed0 as (Hf & Hin & Hlt).
    apply ticksA_lookup_inv in Hf as [Hf Hp].
    exists a1, (S a2), a3, b1, b2, b3.
    constructor; simpl; try done; try lia; by apply fifo_push.
  - destruct afwd as [|f afwd']; [done|].
    destruct (pipe_write _ _ _) as [dp'|] eqn:Hw; [|done].
    apply pipe_write_Some in Hw as [_ ->]. injection Hstep as <-.
    apply fifo_pop_lt in inv_A_forward0 as (Hf & Hin & Hlt).
    exists a1, a2, (S a3), b1, b2, b3.
    constructor; simpl; try done; try lia; by apply fifo_push.
  - case_decide; [|done].
    destruct (pipe_read dp) as [[iflit dp']|] eqn:Hr; [|done].
    apply pipe_read_Some in Hr as ->. simpl in Hstep.
    injection Hstep as <-.
    apply fifo_pop_lt in inv_Data0 as (Hf & Hin & Hlt).
    exists a1, a2, a3, (S b1), b2, b3.
    constructor; simpl; try done; try lia; by apply fifo_push.
  - destruct bwait as [|f bwait']; [done|].
    destruct (pipe_read sp) as [[p sp']|] eqn:Hr; [|done].
    apply pipe_read_Some in Hr as ->. simpl in Hstep.
    injection Hstep as <-.
    apply fifo_pop_lt in inv_B_waiting0 as (Hf & Hin & Hlt).
    apply fifo_pop_lt in inv_Sum0 as (Hp & Hsum & Hlt').
    apply sums_lookup_inv in Hp as (f' & Hf' & ->).
    assert (f' = f) as -> by congruence.
    rewrite Element_add_partialSum by done.
    change (scan_loop W f ssf (Flit_uninit W))
      with (prefixSumSimple_tick W ssf f).
    exists a1, a2, a3, b1, (S b2), b3.
    constructor; simpl; try done; try lia.
    + apply fifo_push; [done|]. unfold TwoStage.outs.
      rewrite (prefixSumSimple_run_lookup _ _ _ _ _ Hf).
      by rewrite <- inv_sumSoFar0.
    + rewrite (prefixSumSimple_state_take_S _ _ _ _ _ Hf).
      by rewrite <- inv_sumSoFar0.
  - destruct brdy as [|o brdy']; [done|].
    destruct (pipe_write _ _ _) as [op'|] eqn:Hw; [|done].
    apply pipe_write_Some in Hw as [_ ->]. injection Hstep as <-.
    apply fifo_pop_lt in inv_B_ready0 as (Hf & Hin & Hlt).
    exists a1, a2, a3, b1, b2, (S b3).
    constructor; simpl; try done; try lia; by apply fifo_push.
  - case_decide; [|done].
    destruct (pipe_read op) as [[flit op']|] eqn:Hr; [|done].
    apply pipe_read_Some in Hr as ->. simpl in Hstep.
    injection Hstep as <-.
    apply fifo_pop_lt in inv_Out0 as (Hf & Hout & Hlt).
    exists a1, a2, a3, b1, b2, b3.
    constructor; simpl; try done; try lia.
    + rewrite (take_S_r _ _ _ Hf), <- inv_obuf0.
      rewrite (take_S_r _ _ flit).
      * by rewrite take_insert_ge.
      * apply list_lookup_insert_eq. lia.
    + by rewrite length_insert.
Qed.

Lemma Over_run_schedule_Invariant sched s :
  Invariant W input s →
  Invariant W input
    (run_schedule W in_flight_A in_flight_B caps input sched s).
Proof.
  revert s. induction sched as [|o sched IH]; intros s HI; [done|].
  simpl. destruct (step_op _ _ _ _ _ o s) as [s'|] eqn:Hs; simpl.
  - apply IH. by eapply Over_Invariant_step.
  - by apply IH.
Qed.

(** What the sink has stored is a prefix of the output stream. *)
Lemma Over_stored sched :
  let s := run_schedule W in_flight_A in_flight_B caps input sched
             (init W input) in
  take (snk_i s) (odataBuf s) = take (snk_i s) (TwoStage.outs W input)
  ∧ (completed input s → odataBuf s = TwoStage.outs W input).
Proof.
  intros s.
  destruct (Over_run_schedule_Invariant sched (init W input))
    as (a1 & a2 & a3 & b1 & b2 & b3 & HI).
  { do 6 exists 0. apply Over_Inv_init. }
  fold s in HI. destruct HI. split; [done|].
  intros Hc. unfold completed in Hc. rewrite Hc in inv_obuf0.
  rewrite <- inv_obuf_len0, take_ge in inv_obuf0 by done.
  rewrite inv_obuf0, take_ge; [done|].
  rewrite length_outs. lia.
Qed.

End TwoStageOverlapped_invariant.

(** One iteration at a time is the overlapped system with at most one
    iteration of each kernel under way. *)
Lemma sequential_is_overlapped W caps input u s s' :
  TwoStage.step_unit W caps input u s = Some s' →
  TwoStageOverlapped.step_op W 1 1 caps input
    (TwoStageOverlapped.op_of u s) (TwoStageOverlapped.of_sequential s)
  = Some (TwoStageOverlapped.of_sequential s').
Proof.
  intros Hstep. destruct s as [i inp a sp dp b ssf op j ob].
  destruct u; simpl in *.
  - case_decide; [|done].
    destruct (input !! i) as [flit|]; [|done]. simpl in *.
    destruct (pipe_write _ _ _) as [inp'|]; [|done]. simpl in *.
    by injection Hstep as <-.
  - destruct a as [|f p|f]; simpl in *.
    + destruct (pipe_read inp) as [[iflit inp']|]; [|done]. simpl in *.
      by injection Hstep as <-.
    + destruct (pipe_write _ _ _) as [sp'|]; [|done]. simpl in *.
      by injection Hstep as <-.
    + destruct (pipe_write _ _ _) as [dp'|]; [|done]. simpl in *.
      by injection Hstep as <-.
  - destruct b as [|f|o]; simpl in *.
    + destruct (pipe_read dp) as [[iflit dp']|]; [|done]. simpl in *.
      by injection Hstep as <-.
    + destruct (pipe_read sp) as [[p sp']|]; [|done]. simpl in *.
      by injection Hstep as <-.
    + destruct (pipe_write _ _ _) as [op'|]; [|done]. simpl in *.
      by injection Hstep as <-.
  - case_decide; [|done].
    destruct (pipe_read op) as [[flit op']|]; [|done]. simpl in *.
    by injection Hstep as <-.
Qed.

Lemma sequential_blocked_overlapped W caps input u s :
  TwoStage.step_unit W caps input u s = None →
  TwoStageOverlapped.step_op W 1 1 caps input
    (TwoStageOverlapped.op_of u s) (TwoStageOverlapped.of_sequential s)
  = None.
Proof.
  intros Hstep. destruct s as [i inp a sp dp b ssf op j ob].
  destruct u; simpl in *.
  - case_decide; [|done].
    destruct (input !! i) as [flit|]; [|done]. simpl in *.
    by destruct (pipe_write _ _ _) as [inp'|].
  - destruct a as [|f p|f]; simpl in *.
    + by destruct (pipe_read inp) as [[iflit inp']|].
    + by destruct (pipe_write _ _ _) as [sp'|].
    + by destruct (pipe_write _ _ _) as [dp'|].
  - destruct b as [|f|o]; simpl in *.
    + by destruct (pipe_read dp) as [[iflit dp']|].
    + by destruct (pipe_read sp) as [[p sp']|].
    + by destruct (pipe_write _ _ _) as [op'|].
  - case_decide; [|done].
    by destruct (pipe_read op) as [[flit op']|].
Qed.

(** A run of the system of [TwoStage] is the run of the overlapped system
    through the same pipe operations, one iteration of each kernel at a
    time. *)
Lemma sequential_run_is_overlapped W caps input sched s :
  TwoStageOverlapped.of_sequential (TwoStage.run_schedule W caps input sched s)
  = TwoStageOverlapped.run_schedule W 1 1 caps input
      (TwoStageOverlapped.ops_of W caps input sched s)
      (TwoStageOverlapped.of_sequential s).
Proof.
  revert s. induction sched as [|u sched IH]; intros s; [done|].
  cbn [TwoStage.run_schedule TwoStageOverlapped.ops_of
       TwoStageOverlapped.run_schedule].
  destruct (TwoStage.step_unit W caps input u s) as [s'|] eqn:Hs.
  - rewrite (sequential_is_overlapped _ _ _ _ _ _ Hs). apply IH.
  - rewrite (sequential_blocked_overlapped _ _ _ _ _ Hs). apply IH.
Qed.

Section OneStageOverlapped_invariant.

Import OneStageOverlapped.

Variable W : nat.
Variable in_flight : nat.
Variable caps : Caps.
Variable input : list Flit.

Lemma Over1_Inv_init : Inv W input (init W input) 0 0.
Proof.
  constructor; simpl; try done; try lia.
  apply length_odataBuf_init.
Qed.

Lemma Over1_Invariant_step o s s' :
  Invariant W input s →
  step_op W in_flight caps input o s = Some s' →
  Invariant W input s'.
Proof.
  intros (s1 & s2 & HI) Hstep.
  assert (Element_ok (prefixSum s)) as Hok.
  { rewrite (inv_prefixSum _ _ _ _ _ HI).
    apply prefixSumSimple_state_ok, Element_ok_0. }
  destruct HI.
  destruct s as [i inp ps rdy op j ob].
  simpl in *. destruct o.
  - case_decide; [|done].
    destruct (input !! i) as [flit|] eqn:Hflit; [|done]. simpl in Hstep.
    destruct (pipe_write _ _ _) as [inp'|] eqn:Hw; [|done].
    apply pipe_write_Some in Hw as [_ ->]. injection Hstep as <-.
    exists s1, s2.
    constructor; simpl; try done; try lia. by apply fifo_push.
  - case_decide; [|done].
    destruct (pipe_read inp) as [[iflit inp']|] eqn:Hr; [|done].
    apply pipe_read_Some in Hr as ->. simpl in Hstep.
    injection Hstep as <-.
    apply fifo_pop_lt in inv_In0 as (Hf & Hin & Hlt).
    exists (S s1), s2.
    constructor; simpl; try done; try lia.
    + apply fifo_push; [done|]. unfold OneStage.outs.
      rewrite (prefixSumSimple_run_lookup _ _ _ _ _ Hf).
      by rewrite <- inv_prefixSum0.
    + rewrite (prefixSumSimple_state_take_S _ _ _ _ _ Hf).
      by rewrite <- inv_prefixSum0.
  - destruct rdy as [|o rdy']; [done|].
    destruct (pipe_write _ _ _) as [op'|] eqn:Hw; [|done].
    apply pipe_write_Some in Hw as [_ ->]. injection Hstep as <-.
    apply fifo_pop_lt in inv_S_ready0 as (Hf & Hin & Hlt).
    exists s1, (S s2).
    constructor; simpl; try done; try lia; by apply fifo_push.
  - case_decide; [|done].
    destruct (pipe_read op) as [[flit op']|] eqn:Hr; [|done].
    apply pipe_read_Some in Hr as ->. simpl in Hstep.
    injection Hstep as <-.
    apply fifo_pop_lt in inv_Out0 as (Hf & Hout & Hlt).
    exists s1, s2.
    constructor; simpl; try done; try lia.
    + rewrite (take_S_r _ _ _ Hf), <- inv_obuf0.
      rewrite (take_S_r _ _ flit).
      * by rewrite take_insert_ge.
      * apply list_lookup_insert_eq. lia.
    + by rewrite length_insert.
Qed.

Lemma Over1_run_schedule_Invariant sched s :
  Invariant W input s →
  Invariant W input (run_schedule W in_flight caps input sched s).
Proof.
  revert s. induction sched as [|o sched IH]; intros s HI; [done|].
  simpl. destruct (step_op _ _ _ _ o s) as [s'|] eqn:Hs; simpl.
  - apply IH. by eapply Over1_Invariant_step.
  - by apply IH.
Qed.

Lemma Over1_stored sched :
  let s := run_schedule W in_flight caps input sched (init W input) in
  take (snk_i s) (odataBuf s) = take (snk_i s) (OneStage.outs W input)
  ∧ (completed input s → odataBuf s = OneStage.outs W input).
Proof.
  intros s.
  destruct (Over1_run_schedule_Invariant sched (init W input))
    as (s1 & s2 & HI).
  { do 2 exists 0. apply Over1_Inv_init. }
  fold s in HI. destruct HI. split; [done|].
  intros Hc. unfold completed in Hc. rewrite Hc in inv_obuf0.
  rewrite <- inv_obuf_len0, take_ge in inv_obuf0 by done.
  rewrite inv_obuf0, take_ge; [done|].
  unfold OneStage.outs. rewrite length_prefixSumSimple_run. lia.
Qed.

End OneStageOverlapped_invariant.

Lemma One_sequential_is_overlapped W caps input u s :
  OneStageOverlapped.step_op W 1 caps input
    (OneStageOverlapped.op_of u s) (OneStageOverlapped.of_sequential s)
  = OneStageOverlapped.of_sequential <$> OneStage.step_unit W caps input u s.
Proof.
  destruct s as [i inp k ps op j ob]. destruct u; simpl.
  - case_decide; [|done].
    destruct (input !! i) as [flit|]; [|done]. simpl.
    by destruct (pipe_write _ _ _) as [inp'|].
  - destruct k as [|o]; simpl.
    + destruct (pipe_read inp) as [[iflit inp']|]; [|done]. simpl.
      by destruct (prefixSumSimple_tick W ps iflit).
    + by destruct (pipe_write _ _ _) as [op'|].
  - case_decide; [|done].
    by destruct (pipe_read op) as [[flit op']|].
Qed.

Lemma One_sequential_run_is_overlapped W caps input sched s :
  OneStageOverlapped.of_sequential (OneStage.run_schedule W caps input sched s)
  = OneStageOverlapped.run_schedule W 1 caps input
      (OneStageOverlapped.ops_of W caps input sched s)
      (OneStageOverlapped.of_sequential s).
Proof.
  revert s. induction sched as [|u sched IH]; intros s; [done|].
  cbn [OneStage.run_schedule OneStageOverlapped.ops_of
       OneStageOverlapped.run_schedule].
  rewrite One_sequential_is_overlapped.
  destruct (OneStage.step_unit W caps input u s) as [s'|]; apply IH.
Qed.

(** C6. The output is a function of the input sequence alone.  Whatever
    the order in which the pipe operations of the kernels take place,
    whatever the capacities of the pipes, and whether a kernel runs its
    iterations one at a time or has several of them under way at once
    (any number, for each kernel), what the sink has stored at any moment
    is a prefix of one and the same flit sequence, and any two runs that
    complete leave the same element sequence in [odataBuf].  This holds
    for the two-stage and for the single-stage pipeline; a run with one
    iteration at a time is a run of the overlapped system. *)
Theorem pipeline_deterministic W input :
  (∀ caps caps' sched sched',
     let s := TwoStage.run_schedule W caps input sched
                (TwoStage.init W input) in
     let s' := TwoStage.run_schedule W caps' input sched'
                 (TwoStage.init W input) in
     take (TwoStage.snk_i s) (TwoStage.odataBuf s)
     = take (TwoStage.snk_i s) (prefixSumAB_run W input)
     ∧ (TwoStage.completed input s → TwoStage.completed input s' →
        unpack (TwoStage.odataBuf s) = unpack (TwoStage.odataBuf s')))
  ∧ (∀ caps caps' sched sched',
       let s := OneStage.run_schedule W caps input sched
                  (OneStage.init W input) in
       let s' := OneStage.run_schedule W caps' input sched'
                   (OneStage.init W input) in
       take (OneStage.snk_i s) (OneStage.odataBuf s)
       = take (OneStage.snk_i s) (prefixSumSimple_run W 0 input)
       ∧ (OneStage.completed input s → OneStage.completed input s' →
          unpack (OneStage.odataBuf s) = unpack (OneStage.odataBuf s')))
  ∧ (∀ in_flight_A in_flight_B in_flight_A' in_flight_B' caps caps' caps''
       sched sched' sched'',
       let s := TwoStageOverlapped.run_schedule W in_flight_A in_flight_B
                  caps input sched (TwoStageOverlapped.init W input) in
       let s' := TwoStageOverlapped.run_schedule W in_flight_A' in_flight_B'
                   caps' input sched' (TwoStageOverlapped.init W input) in
       let s'' := TwoStage.run_schedule W caps'' input sched''
                    (TwoStage.init W input) in
       take (TwoStageOverlapped.snk_i s) (TwoStageOverlapped.odataBuf s)
       = take (TwoStageOverlapped.snk_i s) (prefixSumAB_run W input)
       ∧ (TwoStageOverlapped.completed input s →
          TwoStageOverlapped.completed input s' →
          unpack (TwoStageOverlapped.odataBuf s)
          = unpack (TwoStageOverlapped.odataBuf s'))
       ∧ (TwoStageOverlapped.completed input s →
          TwoStage.completed input s'' →
          unpack (TwoStageOverlapped.odataBuf s)
          = unpack (TwoStage.odataBuf s'')))
  ∧ (∀ in_flight in_flight' caps caps' caps'' sched sched' sched'',
       let s := OneStageOverlapped.run_schedule W in_flight caps input sched
                  (OneStageOverlapped.init W input) in
       let s' := OneStageOverlapped.run_schedule W in_flight' caps' input
                   sched' (OneStageOverlapped.init W input) in
       let s'' := OneStage.run_schedule W caps'' input sched''
                    (OneStage.init W input) in
       take (OneStageOverlapped.snk_i s) (OneStageOverlapped.odataBuf s)
       = take (OneStageOverlapped.snk_i s) (prefixSumSimple_run W 0 input)
       ∧ (OneStageOverlapped.completed input s →
          OneStageOverlapped.completed input s' →
          unpack (OneStageOverlapped.odataBuf s)
          = unpack (OneStageOverlapped.odataBuf s'))
       ∧ (OneStageOverlapped.completed input s →
          OneStage.completed input s'' →
          unpack (OneStageOverlapped.odataBuf s)
          = unpack (OneStage.odataBuf s'')))
  ∧ (∀ caps sched,
       TwoStageOverlapped.of_sequential
         (TwoStage.run_schedule W caps input sched (TwoStage.init W input))
       = TwoStageOverlapped.run_schedule W 1 1 caps input
           (TwoStageOverlapped.ops_of W caps input sched
              (TwoStage.init W input))
           (TwoStageOverlapped.init W input))
  ∧ (∀ caps sched,
       OneStageOverlapped.of_sequential
         (OneStage.run_schedule W caps input sched (OneStage.init W input))
       = OneStageOverlapped.run_schedule W 1 caps input
           (OneStageOverlapped.ops_of W caps input sched
              (OneStage.init W input))
           (OneStageOverlapped.init W input)).
Proof.
  split; [|split; [|split; [|split; [|split]]]].
  - intros caps caps' sched sched' s s'; split.
    + destruct (run_schedule_Invariant W caps input sched _
                  (Invariant_init W input)) as (kA & kB & HI).
      fold s in HI. rewrite (TwoStage.inv_obuf _ _ _ _ _ HI).
      by rewrite prefixSumAB_run_simple.
    + intros Hs Hs'. subst s s'. by rewrite !completed_odataBuf.
  - intros caps caps' sched sched' s s'; split.
    + destruct (One_run_schedule_Invariant W caps input sched
                  (OneStage.init W input)) as (kS & HI).
      { exists 0. apply One_Inv_init. }
      fold s in HI. by rewrite (OneStage.inv_obuf _ _ _ _ HI).
    + intros Hs Hs'. subst s s'. by rewrite !One_completed_odataBuf.
  - intros LA LB LA' LB' caps caps' caps'' sched sched' sched'' s s' s''.
    destruct (Over_stored W LA LB caps input sched) as [Hp Hc].
    destruct (Over_stored W LA' LB' caps' input sched') as [_ Hc'].
    fold s in Hp, Hc. fold s' in Hc'.
    split; [by rewrite prefixSumAB_run_simple|]. split.
    + intros Hs Hs'. by rewrite Hc, Hc'.
    + intros Hs Hs''. subst s''. rewrite Hc by done.
      rewrite completed_odataBuf by done.
      by rewrite prefixSumAB_run_simple.
  - intros L L' caps caps' caps'' sched sched' sched'' s s' s''.
    destruct (Over1_stored W L caps input sched) as [Hp Hc].
    destruct (Over1_stored W L' caps' input sched') as [_ Hc'].
    fold s in Hp, Hc. fold s' in Hc'.
    split; [done|]. split.
    + intros Hs Hs'. by rewrite Hc, Hc'.
    + intros Hs Hs''. subst s''. rewrite Hc by done.
      by rewrite One_completed_odataBuf.
  - intros caps sched. apply sequential_run_is_overlapped.
  - intros caps sched. apply One_sequential_run_is_overlapped.
Qed.

Lemma pipeline_deterministic_witness :
  let s := TwoStageOverlapped.run_schedule 4 2 2
             (caps_exactly DEFAULT_PIPE_DEPTH) scenario1 side_by_side2
             (TwoStageOverlapped.init 4 scenario1) in
  let s'' := TwoStage.run_schedule 4 (caps_exactly 1) scenario1
               (reverse (rounds2 16)) (TwoStage.init 4 scenario1) in
  length (TwoStageOverlapped.A_summed
            (TwoStageOverlapped.run_schedule 4 2 2
               (caps_exactly DEFAULT_PIPE_DEPTH) scenario1
               (take 4 side_by_side2)
               (TwoStageOverlapped.init 4 scenario1))) = 2
  ∧ TwoStageOverlapped.completed scenario1 s
  ∧ TwoStage.completed scenario1 s''
  ∧ unpack (TwoStageOverlapped.odataBuf s) = unpack (TwoStage.odataBuf s'').
Proof.
  intros s s''.
  assert (TwoStageOverlapped.completed scenario1 s) as H
    by (vm_compute; reflexivity).
  assert (TwoStage.completed scenario1 s'') as H''
    by (vm_compute; reflexivity).
  split; [vm_compute; reflexivity|].
  split; [exact H|]. split; [exact H''|].
  exact (proj2 (proj2 (proj1 (proj2 (proj2
           (pipeline_deterministic 4 scenario1)))
           2 2 2 2 (caps_exactly DEFAULT_PIPE_DEPTH)
           (caps_exactly DEFAULT_PIPE_DEPTH) (caps_exactly 1)
           side_by_side2 side_by_side2 (reverse (rounds2 16)))) H H'').
Defined.

Lemma length_unpack_prefixSumSimple_run W p l :
  Element_ok p → length (unpack (prefixSumSimple_run W p l)) = W * length l.
Proof.
  intros Hp. rewrite (length_unpack W) by by apply prefixSumSimple_run_ok.
  by rewrite length_prefixSumSimple_run.
Qed.

(** C7, as the code has it.  With room for at least one entry in every
    pipe (which a declared depth of 1 or more guarantees), a run on [n]
    input flits always completes: no schedule makes the units take more
    than [8 * n] steps; as long as the sink has not stored its last flit
    some unit can step; [8 * n] further rounds in which every unit gets a
    turn complete the run from wherever it stands; and a completed run
    has stored exactly [W * n] elements, with source and sink out of
    their loops.  The kernels [prefixSumA] and [prefixSumB] are
    [while (1)] loops: at completion they stand blocked on the reads of
    their empty input pipes. *)
Theorem run_completes W caps input sched :
  caps_at_least 1 caps →
  let s := TwoStage.run_schedule W caps input sched (TwoStage.init W input) in
  TwoStage.steps_taken W caps input sched (TwoStage.init W input)
  ≤ 8 * length input
  ∧ (¬ TwoStage.completed input s →
     ∃ u s', TwoStage.step_unit W caps input u s = Some s')
  ∧ (∀ rounds,
       Forall TwoStage.fair_round rounds → 8 * length input ≤ length rounds →
       TwoStage.completed input
         (TwoStage.run_schedule W caps input (concat rounds) s))
  ∧ (TwoStage.completed input s →
     length (unpack (TwoStage.odataBuf s)) = W * length input
     ∧ TwoStage.finished input TwoStage.Input2Pipe s
     ∧ TwoStage.finished input TwoStage.Pipe2Output s
     ∧ TwoStage.blocked W caps input TwoStage.PrefixSumA s
     ∧ TwoStage.pcA s = TwoStage.A_read ∧ TwoStage.InPipe s = []
     ∧ TwoStage.blocked W caps input TwoStage.PrefixSumB s
     ∧ TwoStage.pcB s = TwoStage.B_readData ∧ TwoStage.DataPipe s = []).
Proof.
  intros Hcaps s.
  pose proof (run_schedule_Invariant W caps input sched _
                (Invariant_init W input)) as HI. fold s in HI.
  pose proof (steps_taken_work_left W caps input sched
                (TwoStage.init W input)) as Hwork.
  rewrite work_left_init in Hwork. fold s in Hwork.
  split; [lia|]. split; [|split].
  - intros Hnot. destruct HI as (kA & kB & HI).
    destruct (Inv_progress _ _ _ _ _ _ Hcaps HI Hnot) as [s' [u Hu]].
    by exists u, s'.
  - intros rounds Hfair Hlen. apply fair_rounds_complete; [done..|lia].
  - intros Hdone. destruct HI as (kA & kB & HI).
    pose proof (Inv_completed _ _ _ _ _ HI Hdone) as Hs.
    rewrite Hs. cbn.
    split. { apply length_unpack_prefixSumSimple_run, Element_ok_0. }
    repeat split; auto.
Qed.

Lemma run_completes_witness :
  let caps := caps_exactly DEFAULT_PIPE_DEPTH in
  let s := TwoStage.run_schedule 4 caps scenario1 (rounds2 16)
             (TwoStage.init 4 scenario1) in
  caps_at_least 1 caps ∧ TwoStage.completed scenario1 s
  ∧ TwoStage.steps_taken 4 caps scenario1 (rounds2 16)
      (TwoStage.init 4 scenario1) ≤ 8 * length scenario1
  ∧ length (unpack (TwoStage.odataBuf s)) = 4 * length scenario1
  ∧ TwoStage.finished scenario1 TwoStage.Input2Pipe s
  ∧ TwoStage.finished scenario1 TwoStage.Pipe2Output s
  ∧ TwoStage.blocked 4 caps scenario1 TwoStage.PrefixSumA s.
Proof.
  intros caps s.
  assert (caps_at_least 1 caps) as Hcaps
    by (unfold caps_at_least; simpl; unfold DEFAULT_PIPE_DEPTH; lia).
  assert (TwoStage.completed scenario1 s) as Hdone
    by (vm_compute; reflexivity).
  split; [exact Hcaps|]. split; [exact Hdone|].
  pose proof (run_completes 4 caps scenario1 (rounds2 16) Hcaps)
    as (Hsteps & _ & _ & Hfinal).
  split; [exact Hsteps|].
  destruct (Hfinal Hdone) as (Hlen & Hsrc & Hsnk & HA & _).
  split; [exact Hlen|]. split; [exact Hsrc|]. split; [exact Hsnk|]. exact HA.
Defined.

(** C7, as stated, fails in its last part: on the configuration of
    [main.cpp] (stream width 8, pipes of depth 4) and a stream of one
    flit, the run completes and leaves [prefixSumA] and [prefixSumB]
    blocked on pipe reads. *)
Lemma units_left_blocked :
  let caps := caps_exactly DEFAULT_PIPE_DEPTH in
  let s := TwoStage.run_schedule STRM_WIDTH caps one_flit (rounds2 8)
             (TwoStage.init STRM_WIDTH one_flit) in
  caps_at_least 1 caps
  ∧ TwoStage.completed one_flit s
  ∧ unpack (TwoStage.odataBuf s) = [1; 3; 6; 10; 15; 21; 28; 36]%Z
  ∧ TwoStage.blocked STRM_WIDTH caps one_flit TwoStage.PrefixSumA s
  ∧ TwoStage.blocked STRM_WIDTH caps one_flit TwoStage.PrefixSumB s.
Proof.
  intros caps s.
  split. { unfold caps_at_least; simpl; unfold DEFAULT_PIPE_DEPTH; lia. }
  split; [vm_compute; reflexivity|].
  split; [vm_compute; reflexivity|].
  split; (split; [intros []|vm_compute; reflexivity]).
Qed.

(** C8. With four lanes to a flit, the element sequence 1..8 comes out as
    1, 3, 6, 10, 15, 21, 28, 36: from the single-stage kernel, from the
    two-stage kernels, and in [odataBuf] after any completed run of the
    pipeline; the round-robin run on pipes of the default depth is one
    such run, and [main]'s check accepts it.  (At the width [main.cpp]
    fixes for [uint64_t], eight lanes, the same elements make one flit
    and come out the same.) *)
Theorem scenario1_output :
  unpack scenario1 = [1; 2; 3; 4; 5; 6; 7; 8]%Z
  ∧ length scenario1 = 2
  ∧ unpack (prefixSumAB_run STRM_WIDTH one_flit)
    = [1; 3; 6; 10; 15; 21; 28; 36]%Z
  ∧ unpack (prefixSumSimple_run 4 0 scenario1)
    = [1; 3; 6; 10; 15; 21; 28; 36]%Z
  ∧ unpack (prefixSumAB_run 4 scenario1) = [1; 3; 6; 10; 15; 21; 28; 36]%Z
  ∧ (∀ caps sched,
       let s := TwoStage.run_schedule 4 caps scenario1 sched
                  (TwoStage.init 4 scenario1) in
       TwoStage.completed scenario1 s →
       unpack (TwoStage.odataBuf s) = [1; 3; 6; 10; 15; 21; 28; 36]%Z)
  ∧ (let s := TwoStage.run_schedule 4 (caps_exactly DEFAULT_PIPE_DEPTH)
                scenario1 (rounds2 16) (TwoStage.init 4 scenario1) in
     TwoStage.completed scenario1 s
     ∧ main_check 4 2 scenario1 (TwoStage.odataBuf s) = ([], 0%Z)).
Proof.
  split; [vm_compute; reflexivity|].
  split; [vm_compute; reflexivity|].
  split; [vm_compute; reflexivity|].
  split; [vm_compute; reflexivity|].
  split; [vm_compute; reflexivity|].
  split.
  - intros caps sched s Hdone. subst s. rewrite completed_odataBuf by done.
    vm_compute. reflexivity.
  - split; vm_compute; reflexivity.
Qed.

Lemma scenario1_output_witness :
  let s := TwoStage.run_schedule 4 (caps_exactly 1) scenario1
             (reverse (rounds2 16)) (TwoStage.init 4 scenario1) in
  TwoStage.completed scenario1 s
  ∧ unpack (TwoStage.odataBuf s) = [1; 3; 6; 10; 15; 21; 28; 36]%Z.
Proof.
  intros s.
  assert (TwoStage.completed scenario1 s) as Hdone
    by (vm_compute; reflexivity).
  split; [exact Hdone|].
  exact (proj1 (proj2 (proj2 (proj2 (proj2 (proj2 scenario1_output)))))
           (caps_exactly 1) (reverse (rounds2 16)) Hdone).
Defined.

(** C9, as stated, fails: two output buffers that differ from the
    reference at different indices, with different expected and actual
    values, get the same report from [main]'s check, the line
    "Sum incorrect." and the status 1.  The report carries neither the
    index nor the values.  (The buffers are shaped as [main]'s are: twice
    as long as the stream, the second half zero; on the right output the
    check prints nothing and returns 0.) *)
Lemma mismatch_report_without_index :
  first_mismatch scenario1 wrong_at_0 = Some (0, 1%Z, 0%Z)
  ∧ first_mismatch scenario1 wrong_at_7 = Some (7, 36%Z, 99%Z)
  ∧ main_check 4 2 (main_shaped 4 scenario1) (main_shaped 4 wrong_at_0)
    = (["Sum incorrect."%string], 1%Z)
  ∧ main_check 4 2 (main_shaped 4 scenario1) (main_shaped 4 wrong_at_7)
    = (["Sum incorrect."%string], 1%Z)
  ∧ main_check 4 2 (main_shaped 4 scenario1)
      (main_shaped 4 (prefixSumAB_run 4 scenario1))
    = ([], 0%Z).
Proof. repeat split; vm_compute; reflexivity. Qed.

(** C9, as the code has it.  The check compares the first [n] flits of
    the two buffers, [n] the number of flits of the stream.  When the
    comparison of the output against the reference prefix sum fails at
    some index, the check prints "Sum incorrect." and [main] returns 1;
    when it fails nowhere, the check prints nothing and [main] goes on to
    return 0. *)
Theorem mismatch_reported W n idata odata :
  n ≤ length idata → n ≤ length odata →
  Forall (Flit_ok W) (take n idata) → Forall (Flit_ok W) (take n odata) →
  main_check W n idata odata
  = match first_mismatch (take n idata) (take n odata) with
    | Some _ => (["Sum incorrect."%string], 1%Z)
    | None => ([], 0%Z)
    end.
Proof.
  intros Hni Hno Hi Ho. rewrite main_check_spec by done.
  assert (length (prefix_sums (unpack (take n idata)))
          = length (unpack (take n odata))) as Hl.
  { rewrite length_prefix_sums, !(length_unpack W) by done.
    by rewrite !length_take_le. }
  pose proof (first_mismatch_from_None 0 _ _ Hl) as Hnone.
  unfold first_mismatch.
  destruct (first_mismatch_from 0 _ _) as [m|].
  - rewrite decide_False; [done|]. intros Heq. by apply Hnone in Heq.
  - rewrite decide_True; [done|]. by apply Hnone.
Qed.

Lemma mismatch_reported_witness :
  let idata := main_shaped 4 scenario1 in
  let odata := main_shaped 4 wrong_at_7 in
  2 ≤ length idata ∧ 2 ≤ length odata
  ∧ Forall (Flit_ok 4) (take 2 idata) ∧ Forall (Flit_ok 4) (take 2 odata)
  ∧ first_mismatch (take 2 idata) (take 2 odata) = Some (7, 36%Z, 99%Z)
  ∧ main_check 4 2 idata odata
    = match first_mismatch (take 2 idata) (take 2 odata) with
      | Some _ => (["Sum incorrect."%string], 1%Z)
      | None => ([], 0%Z)
      end.
Proof.
  intros idata odata.
  assert (2 ≤ length idata) as Hni by (vm_compute; lia).
  assert (2 ≤ length odata) as Hno by (vm_compute; lia).
  assert (Forall (Flit_ok 4) (take 2 idata)) as Hi by (repeat constructor).
  assert (Forall (Flit_ok 4) (take 2 odata)) as Ho by (repeat constructor).
  split; [exact Hni|]. split; [exact Hno|]. split; [exact Hi|].
  split; [exact Ho|]. split; [vm_compute; reflexivity|].
  exact (mismatch_reported 4 2 idata odata Hni Hno Hi Ho).
Defined.



(** [main]'s check accepts what any completed run of the pipeline leaves
    in [odataBuf]. *)
Corollary main_check_accepts W caps input sched :
  Forall (Flit_ok W) input →
  let s := TwoStage.run_schedule W caps input sched (TwoStage.init W input) in
  TwoStage.completed input s →
  main_check W (length input) input (TwoStage.odataBuf s) = ([], 0%Z).
Proof.
  intros Hin s Hdone. subst s.
  rewrite completed_odataBuf, prefixSumAB_run_simple by done.
  assert (length (prefixSumSimple_run W 0 input) = length input) as Hlen
    by apply length_prefixSumSimple_run.
  rewrite main_check_spec; rewrite ?take_ge by lia; try done; try lia.
  - rewrite decide_True; [done|].
    rewrite unpack_prefixSumSimple_run by (done || apply Element_ok_0).
    symmetry. apply running_prefix_sums.
  - apply prefixSumSimple_run_ok, Element_ok_0.
Qed.

(* ================================================================== *)
(** * Element sequences and flit sequences *)
(* ================================================================== *)

Lemma trip_count_0 W : trip_count W 0 = 0.
Proof.
  unfold trip_count. destruct W as [|W]; [done|]. apply Nat.div_small. lia.
Qed.

Lemma trip_count_add W len :
  0 < W → trip_count W (W + len) = S (trip_count W len).
Proof.
  intros HW. unfold trip_count.
  replace (W + len + (W - 1)) with (len + (W - 1) + 1 * W) by lia.
  rewrite Nat.div_add by lia. lia.
Qed.

(** A stream of [n] full flits takes [n] trips. *)
Lemma trip_count_mul W n : 0 < W → trip_count W (n * W) = n.
Proof.
  intros HW. induction n as [|n IH]; [apply trip_count_0|].
  cbn [Nat.mul]. by rewrite trip_count_add, IH.
Qed.

Lemma pack_nil W : pack W [] = [].
Proof. unfold pack. cbn [length]. by rewrite trip_count_0. Qed.

(** The first [W] elements make the first flit. *)
Lemma pack_cons W elts :
  0 < W → W ≤ length elts →
  pack W elts = mkFlit (take W elts) :: pack W (drop W elts).
Proof.
  intros HW Hlen. unfold pack. rewrite length_drop.
  replace (length elts) with (W + (length elts - W)) at 1 by lia.
  rewrite trip_count_add by done.
  cbn [seq fmap list_fmap]. f_equal.
  - f_equal. apply list_eq. intros j. rewrite list_lookup_fmap.
    destruct (decide (j < W)) as [Hj|Hj].
    + rewrite lookup_seq_lt, lookup_take_lt by done. cbn.
      destruct (lookup_lt_is_Some_2 elts j) as [x Hx]; [lia|].
      by rewrite Hx.
    + rewrite lookup_seq_ge, lookup_take_ge by lia. done.
  - rewrite <- fmap_S_seq, <- list_fmap_compose.
    apply list_fmap_ext. intros _ k _. cbn. f_equal.
    apply list_fmap_ext. intros _ j _. cbn.
    rewrite lookup_drop. do 2 f_equal. lia.
Qed.

(** An element sequence whose length is a multiple of [W] is carried by
    its flits without loss, each flit full. *)
Lemma unpack_pack W q elts :
  0 < W → length elts = q * W →
  unpack (pack W elts) = elts ∧ Forall (Flit_ok W) (pack W elts).
Proof.
  intros HW. revert elts. induction q as [|q IH]; intros elts Hlen.
  - apply nil_length_inv in Hlen as ->. by rewrite pack_nil.
  - rewrite pack_cons by (simpl in Hlen; lia).
    destruct (IH (drop W elts)) as [Hu Hok].
    { rewrite length_drop. simpl in Hlen. lia. }
    split.
    + rewrite unpack_cons, Hu. cbn [element]. apply take_drop.
    + constructor; [|done]. unfold Flit_ok. cbn [element].
      rewrite length_take. simpl in Hlen. lia.
Qed.

(** C2. For every finite input element sequence, element [i] of the
    output stream of the prefix-sum kernel is the sum of input elements
    [0..i] modulo [2^64].  In iteration [k] the kernel reads flit [k] and
    goes through its [W] lanes in index order with
    [prefixSum += element[i]; output[i] = prefixSum]: the flit it writes
    holds the running sums of the lanes from the state the iteration
    starts in, and the state it ends in is that state plus all lanes. *)
Theorem prefix_sum_correct W :
  (∀ elts q i,
     0 < W → length elts = q * W → i < length elts →
     unpack (prefixSumSimple_run W 0 (pack W elts)) !! i
     = Some (wrap (Zsum (take (S i) elts))))
  ∧ (∀ input i,
       Forall (Flit_ok W) input → i < length (unpack input) →
       unpack (prefixSumSimple_run W 0 input) !! i
       = Some (wrap (Zsum (take (S i) (unpack input)))))
  ∧ (∀ input k iflit,
       Forall (Flit_ok W) input → input !! k = Some iflit →
       let prefixSum := prefixSumSimple_state W 0 (take k input) in
       prefixSumSimple_run W 0 input !! k
       = Some (mkFlit (running prefixSum (element iflit)))
       ∧ prefixSumSimple_state W 0 (take (S k) input)
         = foldl Element_add prefixSum (element iflit)).
Proof.
  assert (∀ input i,
            Forall (Flit_ok W) input → i < length (unpack input) →
            unpack (prefixSumSimple_run W 0 input) !! i
            = Some (wrap (Zsum (take (S i) (unpack input))))) as Hflits.
  { intros input i Hin Hi.
    rewrite unpack_prefixSumSimple_run by (done || apply Element_ok_0).
    rewrite running_lookup by (done || apply Element_ok_0).
    by rewrite Z.add_0_l. }
  split; [|split; [exact Hflits|]].
  - intros elts q i HW Hlen Hi.
    destruct (unpack_pack W q elts HW Hlen) as [Hu Hok].
    rewrite Hflits by (done || by rewrite Hu). by rewrite Hu.
  - intros input k iflit Hin Hk prefixSum.
    assert (Element_ok prefixSum) as Hok
      by apply prefixSumSimple_state_ok, Element_ok_0.
    assert (Flit_ok W iflit) as Hf by (by eapply Forall_lookup_1).
    rewrite (prefixSumSimple_run_lookup _ _ _ _ _ Hk).
    rewrite (prefixSumSimple_state_take_S _ _ _ _ _ Hk).
    fold prefixSum. rewrite prefixSumSimple_tick_spec by done.
    cbn [fst snd].
    rewrite scanned_running, foldl_Element_add, (lanes_ok _ _ Hf) by done.
    done.
Qed.

Lemma prefix_sum_correct_witness :
  0 < 4 ∧ length [1; 2; 3; 4; 5; 6; 7; 8]%Z = 2 * 4
  ∧ 5 < length [1; 2; 3; 4; 5; 6; 7; 8]%Z
  ∧ unpack (prefixSumSimple_run 4 0 (pack 4 [1; 2; 3; 4; 5; 6; 7; 8]%Z)) !! 5
    = Some (wrap (Zsum (take 6 [1; 2; 3; 4; 5; 6; 7; 8]%Z))).
Proof.
  assert (0 < 4) as HW by lia.
  assert (length [1; 2; 3; 4; 5; 6; 7; 8]%Z = 2 * 4) as Hlen by reflexivity.
  assert (5 < length [1; 2; 3; 4; 5; 6; 7; 8]%Z) as Hi by (simpl; lia).
  split; [exact HW|]. split; [exact Hlen|]. split; [exact Hi|].
  exact (proj1 (prefix_sum_correct 4) _ 2 5 HW Hlen Hi).
Defined.

(* ================================================================== *)
(** * The host's buffers *)
(* ================================================================== *)

Lemma div_mod_position W k j m :
  0 < W → j < W → k * W + j = m ↔ k = m / W ∧ j = m mod W.
Proof.
  intros HW Hj. split.
  - intros <-. split.
    + apply (Nat.div_unique _ W k j); lia.
    + apply (Nat.mod_unique _ W k j); lia.
  - intros [-> ->]. pose proof (Nat.div_mod_eq m W). lia.
Qed.

Lemma fmap_const_seq {A} (c : A) i n : (λ _, c) <$> seq i n = replicate n c.
Proof.
  revert i. induction n as [|n IH]; intros i; [done|].
  cbn [seq fmap list_fmap replicate]. f_equal. apply IH.
Qed.

Lemma set_elem_zero W n k j :
  set_elem (replicate n (Flit_zero W)) k j 0 = replicate n (Flit_zero W).
Proof.
  unfold set_elem. apply list_eq. intros i.
  destruct (decide (k = i)) as [->|Hne].
  - rewrite list_lookup_alter_eq.
    destruct (replicate n (Flit_zero W) !! i) as [f|] eqn:Hf; [|done].
    apply lookup_replicate in Hf as [-> _]. cbn. f_equal.
    unfold set_lane, Flit_zero. cbn [element]. f_equal.
    apply insert_replicate.
  - by rewrite list_lookup_alter_ne.
Qed.

Section Host.

Variable W : nat.
Variable n : nat.
Hypothesis W_pos : 0 < W.

Lemma host_alloc_length : 2 * (n * W) / W = 2 * n.
Proof. rewrite Nat.mul_assoc. apply Nat.div_mul. lia. Qed.

Lemma idataBuf_after_0 : idataBuf_after W (n * W) 0 = host_alloc W (n * W).
Proof.
  unfold idataBuf_after, host_alloc, Flit_zero.
  rewrite <- (fmap_const_seq _ 0 (2 * (n * W) / W)).
  apply list_fmap_ext. intros _ k _. f_equal.
  rewrite <- (fmap_const_seq _ 0 W).
  apply list_fmap_ext. intros _ j _. by rewrite decide_False by lia.
Qed.

Lemma idataBuf_after_lookup m k :
  k < 2 * n →
  idataBuf_after W (n * W) m !! k
  = Some (mkFlit ((λ j, if decide (k * W + j < m)
                        then wrap (Z.of_nat (k * W + j)) else 0%Z)
                  <$> seq 0 W)).
Proof.
  intros Hk. unfold idataBuf_after.
  rewrite list_lookup_fmap, host_alloc_length, lookup_seq_lt by done.
  done.
Qed.

Lemma idataBuf_after_S m :
  m < n * W →
  set_elem (idataBuf_after W (n * W) m) (m / W) (m mod W) (wrap (Z.of_nat m))
  = idataBuf_after W (n * W) (S m).
Proof.
  intros Hm.
  assert (m / W < n) as Hq by (apply Nat.Div0.div_lt_upper_bound; lia).
  assert (m mod W < W) as Hr by (apply Nat.mod_upper_bound; lia).
  unfold set_elem. apply list_eq. intros k.
  destruct (decide (k < 2 * n)) as [Hk|Hk].
  2:{ rewrite !(lookup_ge_None_2 _ k); [done|..];
        rewrite ?length_alter; unfold idataBuf_after;
        rewrite length_fmap, length_seq, host_alloc_length; lia. }
  rewrite (idataBuf_after_lookup (S m)) by done.
  destruct (decide (m / W = k)) as [<-|Hne].
  - rewrite list_lookup_alter_eq, idataBuf_after_lookup by done.
    cbn. f_equal. unfold set_lane. cbn [element]. f_equal.
    apply list_eq. intros j.
    destruct (decide (j < W)) as [Hj|Hj].
    2:{ rewrite !(lookup_ge_None_2 _ j); [done|..];
          rewrite ?length_insert, length_fmap, length_seq; lia. }
    rewrite list_lookup_fmap, lookup_seq_lt by done. cbn.
    destruct (decide (m mod W = j)) as [<-|Hnej].
    + rewrite list_lookup_insert_eq
        by (rewrite length_fmap, length_seq; lia).
      assert (m / W * W + m mod W = m) as ->
        by (by apply div_mod_position).
      by rewrite decide_True by lia.
    + rewrite list_lookup_insert_ne by done.
      rewrite list_lookup_fmap, lookup_seq_lt by done. cbn.
      assert (m / W * W + j ≠ m) as Hpos.
      { intros Heq. apply div_mod_position in Heq as [_ ?]; [lia..|done]. }
      destruct (decide (m / W * W + j < m));
        [rewrite decide_True by lia | rewrite decide_False by lia]; done.
  - rewrite list_lookup_alter_ne, idataBuf_after_lookup by done.
    do 2 f_equal. apply list_fmap_ext. intros i j Hj.
    apply lookup_seq in Hj as [-> Hj].
    assert (k * W + (0 + i) ≠ m) as Hpos.
    { intros Heq. apply div_mod_position in Heq as [? _]; [|lia..].
      congruence. }
    destruct (decide (k * W + (0 + i) < m));
      [rewrite decide_True by lia | rewrite decide_False by lia]; done.
Qed.

(** The initialising loop after [m] of its rounds. *)
Lemma host_init_fold m :
  m ≤ n * W →
  foldl (host_init_body W)
        (host_alloc W (n * W), host_alloc W (n * W)) (seq 0 m)
  = (idataBuf_after W (n * W) m, host_alloc W (n * W)).
Proof.
  induction m as [|m IH]; intros Hm.
  - cbn. by rewrite idataBuf_after_0.
  - rewrite seq_S, foldl_app, IH by lia. cbn [foldl].
    unfold host_init_body. cbn [fst snd]. f_equal.
    + apply idataBuf_after_S. lia.
    + unfold host_alloc. apply set_elem_zero.
Qed.

Lemma host_init_spec :
  host_init W (n * W)
  = (idataBuf_after W (n * W) (n * W), host_alloc W (n * W)).
Proof. unfold host_init. by apply host_init_fold. Qed.

Lemma length_idataBuf_after m : length (idataBuf_after W (n * W) m) = 2 * n.
Proof.
  unfold idataBuf_after. by rewrite length_fmap, length_seq, host_alloc_length.
Qed.

Lemma pack_lookup elts k :
  k < trip_count W (length elts) →
  pack W elts !! k
  = Some (mkFlit ((λ j, default 0%Z (elts !! (k * W + j))) <$> seq 0 W)).
Proof.
  intros Hk. unfold pack. by rewrite list_lookup_fmap, lookup_seq_lt.
Qed.

Lemma length_pack elts :
  length (pack W elts) = trip_count W (length elts).
Proof. unfold pack. by rewrite length_fmap, length_seq. Qed.

(** The first half of [idataBuf] holds the numbers [0 .. STRM_LEN - 1],
    [W] to a flit. *)
Lemma idataBuf_first_half :
  take n (idataBuf_after W (n * W) (n * W)) = naturals W (n * W).
Proof.
  assert (trip_count W
            (length ((λ i, wrap (Z.of_nat i)) <$> seq 0 (n * W))) = n)
    as Hlen by (rewrite length_fmap, length_seq; by apply trip_count_mul).
  apply list_eq. intros k. unfold naturals.
  destruct (decide (k < n)) as [Hk|Hk].
  2:{ rewrite !(lookup_ge_None_2 _ k); [done|..].
      - rewrite length_pack, Hlen. lia.
      - rewrite length_take. lia. }
  rewrite lookup_take_lt, idataBuf_after_lookup by lia.
  rewrite pack_lookup by (rewrite Hlen; lia).
  do 2 f_equal. apply list_fmap_ext. intros i j Hj.
  apply lookup_seq in Hj as [-> Hj].
  rewrite list_lookup_fmap, lookup_seq_lt by nia.
  cbn. by rewrite decide_True by nia.
Qed.

(** The second half of [idataBuf] is as allocated. *)
Lemma idataBuf_second_half :
  drop n (idataBuf_after W (n * W) (n * W)) = replicate n (Flit_zero W).
Proof.
  apply list_eq. intros k. rewrite lookup_drop.
  destruct (decide (k < n)) as [Hk|Hk].
  - rewrite idataBuf_after_lookup by lia.
    rewrite lookup_replicate_2 by done. do 2 f_equal.
    unfold Flit_zero. rewrite <- (fmap_const_seq _ 0 W). f_equal.
    apply list_fmap_ext. intros _ j _. by rewrite decide_False by nia.
  - rewrite !(lookup_ge_None_2 _); [done|..].
    + rewrite length_replicate. lia.
    + rewrite length_idataBuf_after. lia.
Qed.

Lemma host_alloc_first_half :
  take n (host_alloc W (n * W)) = odataBuf_init W n.
Proof.
  unfold host_alloc, odataBuf_init, Flit_zero.
  rewrite host_alloc_length, take_replicate. f_equal. lia.
Qed.

Lemma host_alloc_second_half :
  drop n (host_alloc W (n * W)) = replicate n (Flit_zero W).
Proof.
  unfold host_alloc. rewrite host_alloc_length, drop_replicate.
  f_equal. lia.
Qed.

End Host.

(* ================================================================== *)
(** * Further properties of the program *)
(* ================================================================== *)

Lemma wrap_Zsum_wrap l : wrap (Zsum (wrap <$> l)) = wrap (Zsum l).
Proof.
  induction l as [|x l IH]; [done|].
  cbn [fmap list_fmap]. rewrite !Zsum_cons.
  rewrite wrap_add_l, <- Element_add_wrap_r, IH.
  by rewrite Element_add_wrap_r.
Qed.

Lemma Zsum_naturals m :
  (2 * Zsum (Z.of_nat <$> seq 0 (S m)) = Z.of_nat m * (Z.of_nat m + 1))%Z.
Proof.
  induction m as [|m IH]; [done|].
  rewrite seq_S, fmap_app, Zsum_app.
  cbn [fmap list_fmap Zsum foldr Nat.add]. lia.
Qed.

Lemma naturals_ok W n :
  0 < W →
  unpack (naturals W (n * W)) = (λ i, wrap (Z.of_nat i)) <$> seq 0 (n * W)
  ∧ Forall (Flit_ok W) (naturals W (n * W)).
Proof.
  intros HW. apply (unpack_pack W n); [done|].
  by rewrite length_fmap, length_seq.
Qed.

Lemma length_naturals W n : 0 < W → length (naturals W (n * W)) = n.
Proof.
  intros HW. unfold naturals.
  rewrite length_pack, length_fmap, length_seq. by apply trip_count_mul.
Qed.

(** X1. The initialising loop of [main] leaves the numbers
    [0 .. STRM_LEN - 1] in the first half of [idataBuf], number [i] in
    lane [i % W] of flit [i / W]; the second half of [idataBuf] and all
    of [odataBuf] stay zero. *)
Theorem host_init_buffers W n :
  0 < W →
  host_init W (n * W)
  = (naturals W (n * W) ++ replicate n (Flit_zero W),
     replicate (2 * n) (Flit_zero W))
  ∧ unpack (naturals W (n * W))
    = (λ i, wrap (Z.of_nat i)) <$> seq 0 (n * W)
  ∧ ∀ i, i < n * W →
         lane (flit_at (host_init W (n * W)).1 (i / W)) (i mod W)
         = wrap (Z.of_nat i).
Proof.
  intros HW. rewrite host_init_spec by done. split; [|split].
  - f_equal.
    + rewrite <- (take_drop n (idataBuf_after W (n * W) (n * W))).
      by rewrite idataBuf_first_half, idataBuf_second_half.
    + unfold host_alloc. by rewrite host_alloc_length.
  - by apply naturals_ok.
  - intros i Hi. cbn [fst].
    assert (i / W < n) as Hq by (apply Nat.Div0.div_lt_upper_bound; lia).
    assert (i mod W < W) as Hr by (apply Nat.mod_upper_bound; lia).
    unfold flit_at. rewrite idataBuf_after_lookup by (done || lia).
    cbn. unfold lane. cbn [element].
    rewrite list_lookup_fmap, lookup_seq_lt by done. cbn.
    assert (i / W * W + i mod W = i) as -> by (by apply div_mod_position).
    by rewrite decide_True by lia.
Qed.

Lemma host_init_buffers_witness :
  0 < 4
  ∧ host_init 4 (2 * 4)
    = (naturals 4 (2 * 4) ++ replicate 2 (Flit_zero 4),
       replicate (2 * 2) (Flit_zero 4)).
Proof.
  assert (0 < 4) as HW by lia.
  split; [exact HW|]. exact (proj1 (host_init_buffers 4 2 HW)).
Defined.

Lemma lanes_of_ext W buf buf' ks :
  (∀ k, k ∈ ks → buf !! k = buf' !! k) →
  lanes_of W buf ks = lanes_of W buf' ks.
Proof.
  intros H. unfold lanes_of. f_equal. apply list_fmap_ext.
  intros i k Hk. cbn. unfold flit_at. rewrite H; [done|].
  by eapply list_elem_of_lookup_2.
Qed.

Lemma check_flits_ext W idata idata' odata odata' ks p :
  (∀ k, k ∈ ks → idata !! k = idata' !! k) →
  (∀ k, k ∈ ks → odata !! k = odata' !! k) →
  check_flits W idata odata ks p = check_flits W idata' odata' ks p.
Proof.
  intros Hi Ho. rewrite !check_flits_spec.
  by rewrite (lanes_of_ext W idata idata'), (lanes_of_ext W odata odata').
Qed.

Lemma lookup_of_take_eq {A} (l l' : list A) n k :
  take n l = take n l' → k ∈ seq 0 n → l !! k = l' !! k.
Proof.
  intros Heq Hk. apply elem_of_seq in Hk as [_ Hk].
  rewrite <- (lookup_take_lt l n k), <- (lookup_take_lt l' n k) by lia.
  by rewrite Heq.
Qed.

(** X2. The checking loop of [main] reads flits [0 .. n-1] of the two
    buffers and nothing else: buffers that agree on their first [n]
    flits get the same verdict. *)
Theorem check_reads_first_flits_only W n idata idata' odata odata' p :
  take n idata = take n idata' → take n odata = take n odata' →
  check_flits W idata odata (seq 0 n) p
  = check_flits W idata' odata' (seq 0 n) p.
Proof.
  intros Hi Ho. apply check_flits_ext; intros k Hk;
    by eapply lookup_of_take_eq.
Qed.

Lemma check_reads_first_flits_only_witness :
  take 2 (scenario1 ++ wrong_at_0) = take 2 scenario1
  ∧ take 2 (wrong_at_7 ++ wrong_at_0) = take 2 wrong_at_7
  ∧ check_flits 4 (scenario1 ++ wrong_at_0) (wrong_at_7 ++ wrong_at_0)
      (seq 0 2) 0
    = check_flits 4 scenario1 wrong_at_7 (seq 0 2) 0.
Proof.
  assert (take 2 (scenario1 ++ wrong_at_0) = take 2 scenario1) as Hi
    by reflexivity.
  assert (take 2 (wrong_at_7 ++ wrong_at_0) = take 2 wrong_at_7) as Ho
    by reflexivity.
  split; [exact Hi|]. split; [exact Ho|].
  exact (check_reads_first_flits_only 4 2 _ _ _ _ 0%Z Hi Ho).
Defined.

Lemma fair_round_round2 : TwoStage.fair_round TwoStage.round.
Proof. intros u. unfold TwoStage.round. destruct u; set_solver. Qed.

Lemma fair_rounds2 n : Forall TwoStage.fair_round (replicate n TwoStage.round).
Proof. apply Forall_replicate, fair_round_round2. Qed.

Lemma main_two_stage_completed W n caps sched :
  0 < W →
  let input := naturals W (n * W) in
  let s := TwoStage.run_schedule W caps input sched (TwoStage.init W input) in
  main_two_stage W (n * W) caps sched
  = if decide (TwoStage.snk_i s = n) then Some ([], 0%Z) else None.
Proof.
  intros HW input s. unfold main_two_stage.
  rewrite host_init_spec by done.
  rewrite trip_count_mul by done. rewrite idataBuf_first_half by done.
  fold input. fold s.
  destruct (decide (TwoStage.snk_i s = n)) as [Hdone|]; [|done].
  assert (length input = n) as Hlen by (by apply length_naturals).
  assert (TwoStage.completed input s) as Hc
    by (unfold TwoStage.completed; by rewrite Hlen).
  destruct (naturals_ok W n HW) as [_ Hok]. fold input in Hok.
  pose proof (main_check_accepts W caps input sched Hok Hc) as Hacc.
  fold s in Hacc. unfold main_check in Hacc. rewrite Hlen in Hacc.
  rewrite (check_flits_ext W _ input _ (TwoStage.odataBuf s)).
  - by destruct (check_flits W input _ _ _).
  - intros k Hk. apply (lookup_of_take_eq _ _ n); [|done].
    rewrite idataBuf_first_half by done. fold input.
    by rewrite take_ge by lia.
  - intros k Hk. apply elem_of_seq in Hk as [_ Hk].
    apply lookup_app_l.
    subst s. rewrite completed_odataBuf, prefixSumAB_run_simple by done.
    rewrite length_prefixSumSimple_run. lia.
Qed.

(** X3. [main] with the two-stage pipeline never reports
    "Sum incorrect.": on the data the host sets up, whenever the sink
    gets to store its last flit the check passes and [main] returns 0.
    With room for one entry in every pipe, any schedule of [8 * n] rounds
    that give every kernel a turn gets there. *)
Theorem main_returns_0 W n caps :
  0 < W →
  (∀ sched,
     main_two_stage W (n * W) caps sched = None
     ∨ main_two_stage W (n * W) caps sched = Some ([], 0%Z))
  ∧ (caps_at_least 1 caps →
     ∀ rounds,
       Forall TwoStage.fair_round rounds → 8 * n ≤ length rounds →
       main_two_stage W (n * W) caps (concat rounds) = Some ([], 0%Z)).
Proof.
  intros HW. split.
  - intros sched. rewrite main_two_stage_completed by done.
    destruct (decide _); auto.
  - intros Hcaps rounds Hfair Hlen.
    rewrite main_two_stage_completed by done.
    rewrite decide_True; [done|].
    pose proof (fair_rounds_complete W caps (naturals W (n * W)) rounds
                  (TwoStage.init W (naturals W (n * W))) Hcaps
                  (Invariant_init W _) Hfair) as Hc.
    rewrite work_left_init, length_naturals in Hc by done.
    specialize (Hc Hlen). unfold TwoStage.completed in Hc.
    by rewrite length_naturals in Hc.
Qed.

Lemma main_returns_0_witness :
  0 < 4 ∧ caps_at_least 1 (caps_exactly DEFAULT_PIPE_DEPTH)
  ∧ Forall TwoStage.fair_round (replicate 16 TwoStage.round)
  ∧ 8 * 2 ≤ length (replicate 16 TwoStage.round)
  ∧ main_two_stage 4 (2 * 4) (caps_exactly DEFAULT_PIPE_DEPTH)
      (concat (replicate 16 TwoStage.round)) = Some ([], 0%Z).
Proof.
  assert (0 < 4) as HW by lia.
  assert (caps_at_least 1 (caps_exactly DEFAULT_PIPE_DEPTH)) as Hcaps
    by (unfold caps_at_least; simpl; unfold DEFAULT_PIPE_DEPTH; lia).
  assert (Forall TwoStage.fair_round (replicate 16 TwoStage.round)) as Hfair
    by apply fair_rounds2.
  assert (8 * 2 ≤ length (replicate 16 TwoStage.round)) as Hlen
    by (simpl; lia).
  split; [exact HW|]. split; [exact Hcaps|]. split; [exact Hfair|].
  split; [exact Hlen|].
  exact (proj2 (main_returns_0 4 2 (caps_exactly DEFAULT_PIPE_DEPTH) HW)
           Hcaps _ Hfair Hlen).
Defined.

(** X4. On the data the host sets up, element [i] of what a completed
    run leaves in [odataBuf] is [0 + 1 + ... + i = i (i + 1) / 2], modulo
    [2^64]. *)
Theorem main_output_triangular W n caps sched i :
  0 < W →
  let input := naturals W (n * W) in
  let s := TwoStage.run_schedule W caps input sched (TwoStage.init W input) in
  TwoStage.completed input s → i < n * W →
  unpack (TwoStage.odataBuf s) !! i
  = Some (wrap (Z.of_nat i * (Z.of_nat i + 1) / 2)).
Proof.
  intros HW input s Hc Hi. subst s.
  destruct (naturals_ok W n HW) as [Hu Hok]. fold input in Hu, Hok.
  rewrite completed_odataBuf, prefixSumAB_run_simple by done.
  rewrite unpack_prefixSumSimple_run by (done || apply Element_ok_0).
  rewrite running_lookup
    by (apply Element_ok_0 || by rewrite Hu, length_fmap, length_seq).
  rewrite Hu, Z.add_0_l, <- fmap_take, take_seq, Nat.min_l by lia.
  rewrite (list_fmap_compose Z.of_nat wrap), wrap_Zsum_wrap.
  do 2 f_equal. pose proof (Zsum_naturals i) as H2.
  rewrite <- H2, Z.mul_comm. symmetry. apply Z.div_mul. lia.
Qed.

Lemma main_output_triangular_witness :
  let input := naturals 4 (2 * 4) in
  let s := TwoStage.run_schedule 4 (caps_exactly 1) input (rounds2 16)
             (TwoStage.init 4 input) in
  0 < 4 ∧ TwoStage.completed input s ∧ 7 < 2 * 4
  ∧ unpack (TwoStage.odataBuf s) !! 7 = Some (wrap (7 * (7 + 1) / 2)).
Proof.
  intros input s.
  assert (0 < 4) as HW by lia.
  assert (TwoStage.completed input s) as Hc by (vm_compute; reflexivity).
  assert (7 < 2 * 4) as Hi by lia.
  split; [exact HW|]. split; [exact Hc|]. split; [exact Hi|].
  exact (main_output_triangular 4 2 (caps_exactly 1) (rounds2 16) 7 HW Hc Hi).
Defined.

Section TwoStage_more.

Import TwoStage.

Variable W : nat.
Variable caps : Caps.
Variable input : list Flit.



(** The sink writes slot [snk_i] and moves on: the slots it has not
    reached are as the host left them. *)
Lemma untouched_step u s s' :
  step_unit W caps input u s = Some s' →
  length (odataBuf s) = length input ∧ snk_i s ≤ length input
  ∧ drop (snk_i s) (odataBuf s)
    = replicate (length input - snk_i s) (Flit_zero W) →
  length (odataBuf s') = length input ∧ snk_i s' ≤ length input
  ∧ drop (snk_i s') (odataBuf s')
    = replicate (length input - snk_i s') (Flit_zero W).
Proof.
  intros Hu (Hlen & Hj & Hdrop).
  destruct s as [i inp a sp dp b ssf op j ob]. destruct u; simpl in *.
  - case_decide; [|done].
    destruct (input !! i) as [flit|]; [|done]. simpl in Hu.
    destruct (pipe_write _ _ _) as [inp'|]; [|done].
    by injection Hu as <-.
  - destruct a as [|f p|f]; simpl in *.
    + destruct (pipe_read inp) as [[iflit inp']|]; [|done].
      by injection Hu as <-.
    + destruct (pipe_write _ _ _) as [sp'|]; [|done].
      by injection Hu as <-.
    + destruct (pipe_write _ _ _) as [dp'|]; [|done].
      by injection Hu as <-.
  - destruct b as [|f|o]; simpl in *.
    + destruct (pipe_read dp) as [[iflit dp']|]; [|done].
      by injection Hu as <-.
    + destruct (pipe_read sp) as [[p sp']|]; [|done].
      by injection Hu as <-.
    + destruct (pipe_write _ _ _) as [op'|]; [|done].
      by injection Hu as <-.
  - case_decide; [|done].
    destruct (pipe_read op) as [[flit op']|]; [|done].
    injection Hu as <-. simpl.
    rewrite length_insert. split; [done|]. split; [lia|].
    rewrite drop_insert_lt by lia.
    replace (S j) with (j + 1) by lia.
    rewrite <- drop_drop, Hdrop, drop_replicate. f_equal. lia.
Qed.

Lemma untouched_run sched s :
  length (odataBuf s) = length input ∧ snk_i s ≤ length input
  ∧ drop (snk_i s) (odataBuf s)
    = replicate (length input - snk_i s) (Flit_zero W) →
  let s' := run_schedule W caps input sched s in
  length (odataBuf s') = length input ∧ snk_i s' ≤ length input
  ∧ drop (snk_i s') (odataBuf s')
    = replicate (length input - snk_i s') (Flit_zero W).
Proof.
  revert s. induction sched as [|u sched IH]; intros s Hs; [done|].
  simpl. destruct (step_unit W caps input u s) as [s1|] eqn:Hu; simpl.
  - apply IH. by eapply untouched_step.
  - by apply IH.
Qed.

End TwoStage_more.

(** X6. The sink stores flit number [j] in slot [j] of [odataBuf] and
    touches nothing else: at any moment the buffer has its original
    length, and the slots from [snk_i] on still hold the zeros the host
    put there. *)
Theorem sink_leaves_later_slots W caps input sched :
  let s := TwoStage.run_schedule W caps input sched (TwoStage.init W input) in
  length (TwoStage.odataBuf s) = length input
  ∧ TwoStage.snk_i s ≤ length input
  ∧ drop (TwoStage.snk_i s) (TwoStage.odataBuf s)
    = replicate (length input - TwoStage.snk_i s) (Flit_zero W).
Proof.
  apply untouched_run. simpl.
  split; [apply length_odataBuf_init|]. split; [lia|].
  by rewrite Nat.sub_0_r.
Qed.

Lemma fifo_window {T} (l q : list T) w r :
  take w l = take r l ++ q → r ≤ w → w ≤ length l →
  q = drop r (take w l) ∧ w = r + length q.
Proof.
  intros H Hr Hw. split.
  - rewrite H. symmetry. apply drop_app_length'. rewrite length_take. lia.
  - apply (f_equal length) in H.
    rewrite length_app, !length_take in H. lia.
Qed.

Section TwoStage_windows.

Import TwoStage.

Variable W : nat.
Variable caps : Caps.
Variable input : list Flit.

Lemma Inv_counts s kA kB :
  Inv W input s kA kB →
  src_i s = kA + A_has_read (pcA s) + length (InPipe s)
  ∧ kA + A_has_written_sum (pcA s)
    = kB + B_has_read_sum (pcB s) + length (SumPipe s)
  ∧ kA = kB + B_has_read_data (pcB s) + length (DataPipe s)
  ∧ kB = snk_i s + length (OutPipe s)
  ∧ src_i s ≤ length input.
Proof.
  intros [].
  assert (A_has_written_sum (pcA s) ≤ A_has_read (pcA s))
    by (destruct (pcA s); simpl; lia).
  assert (B_has_read_sum (pcB s) ≤ B_has_read_data (pcB s))
    by (destruct (pcB s); simpl; lia).
  apply fifo_window in inv_In0 as [_ ?]; [|lia..].
  apply fifo_window in inv_Sum0 as [_ ?];
    [|try lia; unfold sums; rewrite ?length_fmap; lia..].
  apply fifo_window in inv_Data0 as [_ ?]; [|lia..].
  apply fifo_window in inv_Out0 as [_ ?]; [|rewrite ?length_outs; lia..].
  lia.
Qed.

Lemma Inv_windows s kA kB :
  Inv W input s kA kB →
  InPipe s = drop (src_i s - length (InPipe s)) (take (src_i s) input)
  ∧ (∃ k, DataPipe s = drop k (take (k + length (DataPipe s)) input))
  ∧ (∃ k, SumPipe s
          = drop k (take (k + length (SumPipe s)) (sums W input)))
  ∧ take (snk_i s) (odataBuf s) ++ OutPipe s
    = take (snk_i s + length (OutPipe s)) (outs W input).
Proof.
  intros HI. pose proof (Inv_counts s kA kB HI) as (Hi & Hs & Hd & Ho & Hn).
  destruct HI.
  assert (A_has_written_sum (pcA s) ≤ A_has_read (pcA s))
    by (destruct (pcA s); simpl; lia).
  apply fifo_window in inv_In0 as [HIn _]; [|lia..].
  apply fifo_window in inv_Sum0 as [HSum _];
    [|try lia; unfold sums; rewrite ?length_fmap; lia..].
  apply fifo_window in inv_Data0 as [HData _]; [|lia..].
  split; [|split; [|split]].
  - rewrite HIn at 1. f_equal. lia.
  - eexists. rewrite HData at 1. f_equal. f_equal. lia.
  - eexists. rewrite HSum at 1. f_equal. f_equal. lia.
  - rewrite inv_obuf0, <- inv_Out0. f_equal. lia.
Qed.

End TwoStage_windows.

(** X7. The pipes lose, duplicate and reorder nothing.  At any moment
    [InPipe] holds the flits the source wrote last, in the order of the
    input; the data and sum pipes hold consecutive entries of the
    streams [prefixSumA] writes; and what the sink has stored followed by
    what waits in [OutPipe] is a prefix of the output stream. *)
Theorem pipes_keep_order W caps input sched :
  let s := TwoStage.run_schedule W caps input sched (TwoStage.init W input) in
  TwoStage.InPipe s
  = drop (TwoStage.src_i s - length (TwoStage.InPipe s))
         (take (TwoStage.src_i s) input)
  ∧ (∃ k, TwoStage.DataPipe s
          = drop k (take (k + length (TwoStage.DataPipe s))
                         (prefixSumA_run W input).2))
  ∧ (∃ k, TwoStage.SumPipe s
          = drop k (take (k + length (TwoStage.SumPipe s))
                         (prefixSumA_run W input).1))
  ∧ take (TwoStage.snk_i s) (TwoStage.odataBuf s) ++ TwoStage.OutPipe s
    = take (TwoStage.snk_i s + length (TwoStage.OutPipe s))
           (prefixSumAB_run W input).
Proof.
  intros s.
  destruct (run_schedule_Invariant W caps input sched _
              (Invariant_init W input)) as (kA & kB & HI).
  fold s in HI.
  destruct (Inv_windows W input s kA kB HI) as (HIn & HData & HSum & HOut).
  unfold prefixSumA_run. cbn [fst snd].
  rewrite prefixSumA_forwards, prefixSumAB_run_simple. done.
Qed.

(** X8. [prefixSumB] never waits at [TSumPipe::read()]: [prefixSumA]
    writes the sum of a flit before the flit itself, so whenever
    [prefixSumB] holds a flit the sum of that flit is at the head of the
    sum pipe and its next step goes through. *)
Theorem prefixSumB_finds_its_sum W caps input sched iflit :
  let s := TwoStage.run_schedule W caps input sched (TwoStage.init W input) in
  TwoStage.pcB s = TwoStage.B_readSum iflit →
  (∃ rest, TwoStage.SumPipe s = (prefixSumA_tick W iflit).1 :: rest)
  ∧ is_Some (TwoStage.step_unit W caps input TwoStage.PrefixSumB s).
Proof.
  intros s Hb.
  destruct (run_schedule_Invariant W caps input sched _
              (Invariant_init W input)) as (kA & kB & HI).
  fold s in HI.
  pose proof (Inv_counts W input s kA kB HI) as (_ & Hs & Hd & _).
  rewrite Hb in Hs, Hd. simpl in Hs, Hd.
  destruct (TwoStage.SumPipe s) as [|p rest] eqn:Hsp; [simpl in Hs; lia|].
  destruct (Inv_pairing W input s kA kB iflit p rest HI Hb Hsp) as [Hf Hp].
  apply sums_lookup_inv in Hp as (f & Hf' & ->).
  assert (f = iflit) as -> by congruence.
  split; [by exists rest|].
  destruct s; simpl in *. subst. simpl. done.
Qed.

Lemma prefixSumB_finds_its_sum_witness :
  let sched := [TwoStage.Input2Pipe; TwoStage.PrefixSumA; TwoStage.PrefixSumA;
                TwoStage.PrefixSumA; TwoStage.PrefixSumB] in
  let caps := caps_exactly 1 in
  let s := TwoStage.run_schedule 4 caps scenario1 sched
             (TwoStage.init 4 scenario1) in
  let iflit := mkFlit [1; 2; 3; 4]%Z in
  TwoStage.pcB s = TwoStage.B_readSum iflit
  ∧ (∃ rest, TwoStage.SumPipe s = (prefixSumA_tick 4 iflit).1 :: rest)
  ∧ is_Some (TwoStage.step_unit 4 caps scenario1 TwoStage.PrefixSumB s).
Proof.
  intros sched caps s iflit.
  assert (TwoStage.pcB s = TwoStage.B_readSum iflit) as Hb
    by (vm_compute; reflexivity).
  split; [exact Hb|].
  exact (prefixSumB_finds_its_sum 4 caps scenario1 sched iflit Hb).
Defined.

(** X9. Every flit costs eight pipe operations on its way through the
    two-stage pipeline: a run has completed exactly when the units have
    taken [8 * n] steps (given room for one entry in every pipe; without
    it, a completed run still has taken [8 * n]). *)
Theorem steps_to_completion W caps input sched :
  let s := TwoStage.run_schedule W caps input sched (TwoStage.init W input) in
  let k := TwoStage.steps_taken W caps input sched (TwoStage.init W input) in
  (TwoStage.completed input s → k = 8 * length input)
  ∧ (caps_at_least 1 caps → k = 8 * length input →
     TwoStage.completed input s).
Proof.
  intros s k.
  pose proof (run_schedule_Invariant W caps input sched _
                (Invariant_init W input)) as HI. fold s in HI.
  pose proof (steps_taken_work_left W caps input sched
                (TwoStage.init W input)) as Hwork.
  rewrite work_left_init in Hwork. fold s k in Hwork.
  split.
  - intros Hc. destruct HI as (kA & kB & HI).
    rewrite (Inv_completed _ _ _ _ _ HI Hc) in Hwork.
    unfold TwoStage.work_left in Hwork. simpl in Hwork. lia.
  - intros Hcaps Hk. apply (work_left_0_completed W caps); [done..|lia].
Qed.


Section OneStage_more.

Import OneStage.

Variable W : nat.
Variable caps : Caps.
Variable input : list Flit.

Lemma One_run_schedule_app sched sched' s :
  run_schedule W caps input (sched ++ sched') s
  = run_schedule W caps input sched' (run_schedule W caps input sched s).
Proof.
  revert s. induction sched as [|u sched IH]; intros s; [done|]. apply IH.
Qed.

Lemma steps_taken1_work_left sched s :
  work_left input s
  = steps_taken1 W caps input sched s
    + work_left input (run_schedule W caps input sched s).
Proof.
  revert s. induction sched as [|u sched IH]; intros s; [done|].
  simpl. destruct (step_unit W caps input u s) as [s1|] eqn:Hu; simpl.
  - rewrite (One_work_left_step W caps input s s1) by (by exists u).
    rewrite (IH s1). lia.
  - apply IH.
Qed.

Lemma One_run_schedule_advances sched u s s1 :
  step_unit W caps input u s = Some s1 → u ∈ sched →
  work_left input (run_schedule W caps input sched s) < work_left input s.
Proof.
  revert s s1. induction sched as [|v sched IH]; intros s s1 Hu Hin.
  - by apply elem_of_nil in Hin.
  - simpl. destruct (step_unit W caps input v s) as [s2|] eqn:Hv; simpl.
    + pose proof (steps_taken1_work_left sched s2) as H2.
      rewrite (One_work_left_step W caps input s s2) by (by exists v). lia.
    + apply elem_of_cons in Hin as [->|Hin]; [congruence|].
      by eapply IH.
Qed.

Lemma One_completed_run sched s :
  Invariant W input s → completed input s →
  run_schedule W caps input sched s = s.
Proof.
  intros [kS HI] Hdone. induction sched as [|u sched IH]; [done|].
  simpl.
  assert (step_unit W caps input u s = None) as ->; [|done].
  rewrite (One_Inv_completed _ _ _ _ HI Hdone).
  destruct u; simpl; try done; by rewrite decide_False by lia.
Qed.

Lemma One_fair_rounds_complete rounds s :
  caps_at_least 1 caps → Invariant W input s →
  Forall (λ r, ∀ u : Unit, u ∈ r) rounds →
  work_left input s ≤ length rounds →
  completed input (run_schedule W caps input (concat rounds) s).
Proof.
  intros Hcaps HI Hfair. revert s HI.
  induction Hfair as [|r rounds Hr _ IH]; intros s HI Hlen.
  - simpl in *. destruct (decide (snk_i s = length input)) as [|Hnot];
      [done|].
    destruct HI as [kS HI].
    destruct (One_Inv_progress _ _ _ _ _ Hcaps HI Hnot) as [s' Hstep].
    rewrite (One_work_left_step _ _ _ _ _ Hstep) in Hlen. lia.
  - cbn [concat]. rewrite One_run_schedule_app.
    destruct (decide (snk_i s = length input)) as [Hdone|Hnot].
    + by rewrite (One_completed_run r s HI Hdone),
         (One_completed_run (concat rounds) s HI Hdone).
    + apply IH; [by apply One_run_schedule_Invariant|].
      destruct HI as [kS HI].
      destruct (One_Inv_progress _ _ _ _ _ Hcaps HI Hnot) as [s' [u Hu]].
      pose proof (One_run_schedule_advances r u s s' Hu (Hr u)).
      simpl in Hlen. lia.
Qed.

End OneStage_more.

(** X11. The single-stage pipeline (the branch of [main] under [#if 0])
    completes as well, at four pipe operations a flit: with room for one
    entry in every pipe no schedule makes the units take more than
    [4 * n] steps, some unit can step until the sink has stored its last
    flit, and [4 * n] fair rounds complete the run from wherever it
    stands.  A completed run has taken exactly [4 * n] steps and leaves
    [prefixSumSimple] blocked at [TInPipe::read()]. *)
Theorem single_stage_completes W caps input sched :
  caps_at_least 1 caps →
  let s := OneStage.run_schedule W caps input sched (OneStage.init W input) in
  let k := steps_taken1 W caps input sched (OneStage.init W input) in
  k ≤ 4 * length input
  ∧ (¬ OneStage.completed input s →
     ∃ u s', OneStage.step_unit W caps input u s = Some s')
  ∧ (∀ rounds,
       Forall (λ r, ∀ u : OneStage.Unit, u ∈ r) rounds →
       4 * length input ≤ length rounds →
       OneStage.completed input
         (OneStage.run_schedule W caps input (concat rounds) s))
  ∧ (OneStage.completed input s →
     k = 4 * length input
     ∧ OneStage.odataBuf s = prefixSumSimple_run W 0 input
     ∧ OneStage.blocked W caps input OneStage.PrefixSum s
     ∧ OneStage.pc s = OneStage.S_read ∧ OneStage.InPipe s = []).
Proof.
  intros Hcaps s k.
  assert (OneStage.Invariant W input (OneStage.init W input)) as HI0
    by (exists 0; apply One_Inv_init).
  pose proof (One_run_schedule_Invariant W caps input sched _ HI0) as HI.
  fold s in HI.
  pose proof (steps_taken1_work_left W caps input sched
                (OneStage.init W input)) as Hwork.
  fold s k in Hwork.
  assert (OneStage.work_left input (OneStage.init W input)
          = 4 * length input) as Hinit
    by (unfold OneStage.work_left; simpl; lia).
  split; [lia|]. split; [|split].
  - intros Hnot. destruct HI as [kS HI].
    destruct (One_Inv_progress _ _ _ _ _ Hcaps HI Hnot) as [s' [u Hu]].
    by exists u, s'.
  - intros rounds Hfair Hlen.
    apply One_fair_rounds_complete; [done..|lia].
  - intros Hdone. destruct HI as [kS HI].
    pose proof (One_Inv_completed _ _ _ _ HI Hdone) as Hs.
    rewrite Hs in Hwork |- *. unfold OneStage.work_left in Hwork.
    simpl in Hwork. cbn.
    split; [lia|]. repeat split; auto.
Qed.

Lemma single_stage_completes_witness :
  let caps := caps_exactly 1 in
  let s := OneStage.run_schedule 4 caps scenario1 (rounds1 8)
             (OneStage.init 4 scenario1) in
  caps_at_least 1 caps ∧ OneStage.completed scenario1 s
  ∧ steps_taken1 4 caps scenario1 (rounds1 8) (OneStage.init 4 scenario1)
    = 4 * length scenario1
  ∧ OneStage.odataBuf s = prefixSumSimple_run 4 0 scenario1.
Proof.
  intros caps s.
  assert (caps_at_least 1 caps) as Hcaps
    by (unfold caps_at_least; simpl; lia).
  assert (OneStage.completed scenario1 s) as Hdone
    by (vm_compute; reflexivity).
  split; [exact Hcaps|]. split; [exact Hdone|].
  pose proof (single_stage_completes 4 caps scenario1 (rounds1 8) Hcaps)
    as (_ & _ & _ & Hfinal).
  destruct (Hfinal Hdone) as (Hk & Hbuf & _).
  split; [exact Hk | exact Hbuf].
Defined.

(** X13. No lane of [oflit] leaves a kernel as it was declared: the loop
    writes all [W] lanes, so the flit written to the output pipe has [W]
    lanes and does not depend on what [oflit] held before the loop. *)
Theorem oflit_fully_written W iflit p o o' :
  Element_ok p → Flit_ok W o → Flit_ok W o' →
  scan_loop W iflit p o = scan_loop W iflit p o'
  ∧ Flit_ok W (scan_loop W iflit p o).2
  ∧ ∀ i, i < W →
         element (scan_loop W iflit p o).2 !! i
         = Some (wrap (p + Zsum (lanes (S i) iflit))).
Proof.
  intros Hp Ho Ho'. rewrite !scan_loop_spec by done. cbn [snd element].
  split; [done|]. split.
  - unfold Flit_ok. cbn [element]. apply length_scanned.
  - intros i Hi. unfold scanned.
    by rewrite list_lookup_fmap, lookup_seq_lt.
Qed.

Lemma oflit_fully_written_witness :
  Element_ok 5 ∧ Flit_ok 4 (mkFlit [9; 9; 9; 9]%Z) ∧ Flit_ok 4 (Flit_uninit 4)
  ∧ scan_loop 4 (mkFlit [1; 2; 3; 4]%Z) 5 (mkFlit [9; 9; 9; 9]%Z)
    = scan_loop 4 (mkFlit [1; 2; 3; 4]%Z) 5 (Flit_uninit 4).
Proof.
  assert (Element_ok 5) as Hp by (split; [lia | reflexivity]).
  assert (Flit_ok 4 (mkFlit [9; 9; 9; 9]%Z)) as Ho by reflexivity.
  assert (Flit_ok 4 (Flit_uninit 4)) as Ho' by reflexivity.
  split; [exact Hp|]. split; [exact Ho|]. split; [exact Ho'|].
  exact (proj1 (oflit_fully_written 4 (mkFlit [1; 2; 3; 4]%Z) 5 _ _
                  Hp Ho Ho')).
Defined.

Lemma STRM_LEN_flits :
  Z.to_nat STRM_LEN = Z.to_nat (2 ^ 21) * STRM_WIDTH.
Proof.
  unfold STRM_WIDTH. rewrite <- Z2Nat.inj_mul by done. f_equal.
Qed.

Lemma main_two_stage_fair W n caps rounds :
  0 < W → caps_at_least 1 caps →
  Forall TwoStage.fair_round rounds → 8 * n ≤ length rounds →
  main_two_stage W (n * W) caps (concat rounds) = Some ([], 0%Z).
Proof.
  intros HW Hcaps Hfair Hlen.
  rewrite main_two_stage_completed by done.
  rewrite decide_True; [done|].
  pose proof (fair_rounds_complete W caps (naturals W (n * W)) rounds
                (TwoStage.init W (naturals W (n * W))) Hcaps
                (Invariant_init W _) Hfair) as Hc.
  rewrite work_left_init, length_naturals in Hc by done.
  specialize (Hc Hlen). unfold TwoStage.completed in Hc.
  by rewrite length_naturals in Hc.
Qed.

(** X14. The program as it is compiled: with [STRM_WIDTH = 8],
    [STRM_LEN = 1 << 24] and pipes at least [DEFAULT_PIPE_DEPTH] deep,
    [main] never reports "Sum incorrect.", and under any schedule in
    which every kernel gets its turn often enough (eight rounds a flit)
    the sink finishes, the check passes and [main] returns 0. *)
Theorem main_as_compiled caps rounds :
  caps_at_least DEFAULT_PIPE_DEPTH caps →
  Forall TwoStage.fair_round rounds →
  8 * Z.to_nat (2 ^ 21) ≤ length rounds →
  main_two_stage STRM_WIDTH (Z.to_nat STRM_LEN) caps (concat rounds)
  = Some ([], 0%Z).
Proof.
  intros (HIn & HOut & HData & HSum) Hfair Hlen. rewrite STRM_LEN_flits.
  apply main_two_stage_fair; [|unfold caps_at_least, DEFAULT_PIPE_DEPTH in *;
                                lia|done..].
  unfold STRM_WIDTH. rewrite <- Z2Nat.inj_0. apply Z2Nat.inj_lt; done.
Qed.

Lemma main_as_compiled_witness :
  caps_at_least DEFAULT_PIPE_DEPTH (caps_exactly DEFAULT_PIPE_DEPTH)
  ∧ Forall TwoStage.fair_round
      (replicate (8 * Z.to_nat (2 ^ 21)) TwoStage.round)
  ∧ 8 * Z.to_nat (2 ^ 21)
    ≤ length (replicate (8 * Z.to_nat (2 ^ 21)) TwoStage.round)
  ∧ main_two_stage STRM_WIDTH (Z.to_nat STRM_LEN)
      (caps_exactly DEFAULT_PIPE_DEPTH)
      (concat (replicate (8 * Z.to_nat (2 ^ 21)) TwoStage.round))
    = Some ([], 0%Z).
Proof.
  assert (caps_at_least DEFAULT_PIPE_DEPTH (caps_exactly DEFAULT_PIPE_DEPTH))
    as Hcaps by (repeat split; apply le_n).
  assert (Forall TwoStage.fair_round
            (replicate (8 * Z.to_nat (2 ^ 21)) TwoStage.round)) as Hfair
    by apply fair_rounds2.
  assert (8 * Z.to_nat (2 ^ 21)
          ≤ length (replicate (8 * Z.to_nat (2 ^ 21)) TwoStage.round))
    as Hlen by (rewrite length_replicate; apply le_n).
  split; [exact Hcaps|]. split; [exact Hfair|]. split; [exact Hlen|].
  exact (main_as_compiled _ _ Hcaps Hfair Hlen).
Defined.

Lemma div_mod_next W i :
  0 < W → (W + i) / W = S (i / W) ∧ (W + i) mod W = i mod W.
Proof.
  intros HW.
  assert (i mod W < W) as Hr by (apply Nat.mod_upper_bound; lia).
  destruct (proj1 (div_mod_position W (S (i / W)) (i mod W) (W + i) HW Hr))
    as [<- <-]; [|done].
  pose proof (Nat.div_mod_eq i W). lia.
Qed.

(** X15. The flat element sequence and the addressing of the code agree:
    element [i] of a buffer of full flits is lane [i % W] of flit
    [i / W], the place the host's loops read and write it. *)
Theorem unpack_addressing W buf i :
  0 < W → Forall (Flit_ok W) buf →
  unpack buf !! i = buf !! (i / W) ≫= (λ f, element f !! (i mod W)).
Proof.
  intros HW Hbuf. revert i.
  induction Hbuf as [|f buf Hf _ IH]; intros i.
  - by rewrite !lookup_nil.
  - rewrite unpack_cons. unfold Flit_ok in Hf.
    destruct (decide (i < W)) as [Hi|Hi].
    + rewrite lookup_app_l by lia.
      rewrite Nat.div_small, Nat.mod_small by done. done.
    + rewrite lookup_app_r by lia. rewrite Hf, IH.
      destruct (div_mod_next W (i - W) HW) as [Hq Hr].
      replace (W + (i - W)) with i in Hq, Hr by lia.
      by rewrite Hq, Hr.
Qed.

Lemma unpack_addressing_witness :
  0 < 4 ∧ Forall (Flit_ok 4) scenario1
  ∧ unpack scenario1 !! 6
    = scenario1 !! (6 / 4) ≫= (λ f, element f !! (6 mod 4)).
Proof.
  assert (0 < 4) as HW by lia.
  assert (Forall (Flit_ok 4) scenario1) as Hok by (repeat constructor).
  split; [exact HW|]. split; [exact Hok|].
  exact (unpack_addressing 4 scenario1 6 HW Hok).
Defined.
